(** * task-runner: a verification model of [src/index.ts]

    The development embeds the task node, the status lattice, the redraw
    scheduler and the public entry points of the task runner, and states the
    properties of the specification against them.

    Conventions of the embedding.
    - A JavaScript string is the list of its UTF-16 code units ([jsstring]);
      [length] and [slice] therefore count what the source counts.
    - [strip-ansi] and [chalk] are packages the program imports.  The model
      takes them as parameters of a section ([stripAnsi], [statusText],
      [cyan]); the modules [Ansi] and [Chalk] give one concrete instance,
      used to run the model.
    - A [Task] is a JavaScript object.  Its fields are a record; the
      back-reference [_owner] is not a field of the record: a method that
      touches [this._owner] runs in the state monad [M] over the process
      state, where the runner of the process lives.  The source makes one
      runner only ([currentRunner] is assigned while it is undefined and
      never cleared), so [this._owner] is [currentRunner].
    - An operation handed to [run] is run to the end of the current turn of
      the event loop; a promise is the state it has then.  The task an
      operation runs for is kept on the stack [currentTask] while it runs
      and is appended to its parent, or to the roots, when [new Task]
      returns, in the order of the statements of [run].
    - The instants at which promises settle over several turns are the
      subject of the module [Timing].
    - The module [Part000] embeds the variant of the library in
      [unnamed/part_000], on the same process state. *)

From Stdlib Require Import String Ascii DecimalString.
From Stdlib Require Import ZArith NArith Arith Bool Lia List Permutation.
Import ListNotations.

Set Implicit Arguments.

(** ** JavaScript strings *)

Module JS.

Definition jsstring := list N.

(** An ASCII literal of the source. *)
Definition lit (s : string) : jsstring :=
  map N_of_ascii (list_ascii_of_string s).

(** U+2026, the one code unit of the ellipsis in the source's literals. *)
Definition ellipsis : N := 8230%N.

Definition space : N := 32%N.
Definition newline : N := 10%N.

(** [String(n)] for a natural number. *)
Definition ofNat (n : nat) : jsstring :=
  lit (NilZero.string_of_uint (Nat.to_uint n)).

(** [s.slice(0, e)]: a negative [e] counts from the end of [s]. *)
Definition slice0 (s : jsstring) (e : Z) : jsstring :=
  let len := Z.of_nat (length s) in
  let stop := if (e <? 0)%Z then Z.max (len + e) 0 else Z.min e len in
  firstn (Z.to_nat stop) s.

(** [c.repeat(n)] for a string [c]. *)
Fixpoint repeat (c : jsstring) (n : nat) : jsstring :=
  match n with
  | O => []
  | S n' => c ++ repeat c n'
  end.

(** [s.padEnd(n)]: spaces are appended while [s] is shorter than [n]. *)
Definition padEnd (s : jsstring) (n : nat) : jsstring :=
  s ++ List.repeat space (n - length s).

(** [xs.join(sep)]. *)
Fixpoint join (sep : jsstring) (xs : list jsstring) : jsstring :=
  match xs with
  | [] => []
  | [x] => x
  | x :: rest => x ++ sep ++ join sep rest
  end.

End JS.
Import JS.

(** ** A concrete instance of the imported styling packages *)

Module Ansi.

Definition ESC : N := 27%N.
Definition CSI : N := 155%N.

(** No code unit of [s] can start an escape sequence. *)
Definition plain (s : jsstring) : bool :=
  forallb (fun c => negb (N.eqb c ESC) && negb (N.eqb c CSI)) s.

(** [ESC [ n m], a select-graphic-rendition code. *)
Definition sgr (n : nat) : jsstring :=
  [ESC; 91%N] ++ ofNat n ++ [109%N].

(** What chalk returns for a basic colour when colours are enabled:
    the text between the opening code and the code that resets the
    foreground colour. *)
Definition chalk (open : nat) (text : jsstring) : jsstring :=
  sgr open ++ text ++ sgr 39.

Definition isParam (c : N) : bool :=
  ((48 <=? c)%N && (c <=? 57)%N) || N.eqb c 59%N.

(** Drops the parameters of a sequence and its final unit. *)
Fixpoint skipParams (s : jsstring) : jsstring :=
  match s with
  | [] => []
  | c :: rest => if isParam c then skipParams rest else rest
  end.

(** Removes every sequence [ESC [ params final]; all other units stay. *)
Fixpoint stripFuel (fuel : nat) (s : jsstring) : jsstring :=
  match fuel with
  | O => []
  | S fuel' =>
      match s with
      | [] => []
      | c :: rest =>
          if N.eqb c ESC then
            match rest with
            | 91%N :: rest' => stripFuel fuel' (skipParams rest')
            | _ => c :: stripFuel fuel' rest
            end
          else c :: stripFuel fuel' rest
      end
  end.

Definition strip (s : jsstring) : jsstring := stripFuel (S (length s)) s.

End Ansi.

(** ** The status lattice *)

(** [type Status = '...' | 'done' | 'skip' | 'warn' | 'fail'] *)
Inductive Status : Type := Pending | Done | Skip | Warn | Fail.

Definition Status_eqb (a b : Status) : bool :=
  match a, b with
  | Pending, Pending | Done, Done | Skip, Skip | Warn, Warn | Fail, Fail => true
  | _, _ => false
  end.

Definition statusStrength (s : Status) : nat :=
  match s with
  | Pending => 0
  | Done => 1
  | Warn => 2
  | Fail => 3
  | Skip => 4
  end.

(** The table [statusText] and [chalk.cyan] as chalk yields them when
    colours are enabled. *)
Module Chalk.

Definition ansi256 (code : nat) (text : jsstring) : jsstring :=
  [Ansi.ESC; 91%N] ++ lit "38;5;" ++ ofNat code ++ [109%N]
    ++ text ++ Ansi.sgr 39.

Definition statusText (s : Status) : jsstring :=
  match s with
  | Pending => lit "...."
  | Done => Ansi.chalk 32 (lit "Done")
  | Skip => Ansi.chalk 33 (lit "Skip")
  | Warn => ansi256 214 (lit "Warn")
  | Fail => Ansi.chalk 31 (lit "Fail")
  end.

Definition cyan (text : jsstring) : jsstring := Ansi.chalk 36 text.

End Chalk.

(** ** Message merging *)

(** The loop of [commonLen]: [result] advances while it is below [cmpLen]
    and the two strings agree at [result]. *)
Fixpoint commonLen_loop (a b : jsstring) (cmpLen result fuel : nat) : nat :=
  match fuel with
  | O => result
  | S fuel' =>
      if result <? cmpLen then
        match nth_error a result, nth_error b result with
        | Some x, Some y =>
            if N.eqb x y then commonLen_loop a b cmpLen (S result) fuel'
            else result
        | _, _ => result
        end
      else result
  end.

Definition commonLen (a b : jsstring) : nat :=
  let cmpLen := Nat.min (length a) (length b) in
  commonLen_loop a b cmpLen 0 cmpLen.

Definition combineStrings (a b : jsstring) (count : nat) : jsstring :=
  slice0 a (Z.of_nat (commonLen a b))
    ++ [space; ellipsis; space] ++ lit "[" ++ ofNat count ++ lit "]".

(** ** Promises, as they stand when the current turn of the loop ends *)

(** An [Error] object, given by its [message].  The rejections of the
    model are rejections with such an object: [new Error(m)], or the
    [RangeError] and the like that the host throws.  A value thrown that
    is not one (a value without a string [message], or [undefined] and
    [null], for which reading [e.message] throws) is outside the model,
    and the properties below that speak of a rejection speak of a
    rejection with an [Error] object. *)
Definition Error := jsstring.

Inductive Promise (T : Type) : Type :=
| Unsettled
| Fulfilled (v : T)
| Rejected (e : Error).
Arguments Unsettled {T}.
Arguments Fulfilled {T} v.
Arguments Rejected {T} e.

(** [Promise.all]: the first rejection wins; otherwise all must be
    fulfilled. *)
Fixpoint firstRejected (ps : list (Promise unit)) : option Error :=
  match ps with
  | [] => None
  | Rejected e :: _ => Some e
  | _ :: rest => firstRejected rest
  end.

Definition isFulfilled (p : Promise unit) : bool :=
  match p with Fulfilled _ => true | _ => false end.

Definition Promise_all (ps : list (Promise unit)) : Promise unit :=
  match firstRejected ps with
  | Some e => Rejected e
  | None => if forallb isFulfilled ps then Fulfilled tt else Unsettled
  end.

(** ** Task nodes and the process state *)

#[warnings="-register-all"]
Inductive Task : Type := mkTask {
  _description : jsstring;
  _status : Status;
  _subTasks : list Task;
  _logs : list jsstring;
  _message : jsstring;
  _msgCount : nat;
  _completion : Promise unit
}.

Definition with_status (s : Status) (t : Task) : Task :=
  mkTask (_description t) s (_subTasks t) (_logs t) (_message t)
         (_msgCount t) (_completion t).

Definition with_subTasks (l : list Task) (t : Task) : Task :=
  mkTask (_description t) (_status t) l (_logs t) (_message t)
         (_msgCount t) (_completion t).

Definition with_logs (l : list jsstring) (t : Task) : Task :=
  mkTask (_description t) (_status t) (_subTasks t) l (_message t)
         (_msgCount t) (_completion t).

Definition with_message (m : jsstring) (t : Task) : Task :=
  mkTask (_description t) (_status t) (_subTasks t) (_logs t) m
         (_msgCount t) (_completion t).

Definition with_msgCount (n : nat) (t : Task) : Task :=
  mkTask (_description t) (_status t) (_subTasks t) (_logs t) (_message t)
         n (_completion t).

Definition with_completion (p : Promise unit) (t : Task) : Task :=
  mkTask (_description t) (_status t) (_subTasks t) (_logs t) (_message t)
         (_msgCount t) p.

(** The handle [setImmediate] returns. *)
Definition Immediate := nat.

(** The check phase of the event loop: the immediates not yet run.  The
    program passes one callback only to [setImmediate], the redraw of the
    runner, so a handle stands for it. *)
Record Loop : Type := mkLoop {
  immediates : list Immediate;
  nextImmediate : nat
}.

(** The four entry points of [console] the runner redirects. *)
Inductive Entry : Type := Log | Warn_ | Error_ | Info.

(** What an entry point is bound to: the function of the host, or one of
    the three closures of the [Runner] constructor. *)
Inductive Handler : Type :=
| Native (which : Entry)
| consoleHandler
| warningHandler
| errorHandler.

Record Console : Type := mkConsole {
  console_log : Handler;
  console_warn : Handler;
  console_error : Handler;
  console_info : Handler
}.

(** A [logUpdate] instance: the frames it was given, and how often it was
    finalised. *)
Record LogUpdate : Type := mkLogUpdate {
  frames : list jsstring;
  doneCalls : nat
}.

Record Runner : Type := mkRunner {
  _terminatedRoots : nat;
  _backend : LogUpdate;
  _roots : list Task;
  _rerender : option Immediate;
  _consoleLog : Handler;
  _consoleErr : Handler;
  _consoleWarn : Handler;
  _consoleInfo : Handler
}.

Definition with_rerender (h : option Immediate) (r : Runner) : Runner :=
  mkRunner (_terminatedRoots r) (_backend r) (_roots r) h
           (_consoleLog r) (_consoleErr r) (_consoleWarn r) (_consoleInfo r).

Definition with_roots (l : list Task) (r : Runner) : Runner :=
  mkRunner (_terminatedRoots r) (_backend r) l (_rerender r)
           (_consoleLog r) (_consoleErr r) (_consoleWarn r) (_consoleInfo r).

Definition with_terminatedRoots (n : nat) (r : Runner) : Runner :=
  mkRunner n (_backend r) (_roots r) (_rerender r)
           (_consoleLog r) (_consoleErr r) (_consoleWarn r) (_consoleInfo r).

Definition with_backend (b : LogUpdate) (r : Runner) : Runner :=
  mkRunner (_terminatedRoots r) b (_roots r) (_rerender r)
           (_consoleLog r) (_consoleErr r) (_consoleWarn r) (_consoleInfo r).

(** The state of the process the program runs in.
    - [currentTask] is the [AsyncLocalStorage]: the stores of the
      [currentTask.run] calls that are open, innermost first; [getStore()]
      is its head.  The object a store refers to is kept here while its
      operation runs, and every mutation through [getStore()] lands on it.
    - [currentRunner] is the module variable of that name.
    - [created] counts the calls of [logUpdate.create], [stdout] holds what
      the host's own [console] functions were given, [columns] is
      [process.stdout.columns]. *)
Record World : Type := mkWorld {
  currentTask : list Task;
  currentRunner : option Runner;
  console : Console;
  loop : Loop;
  columns : option nat;
  stdout : list (Entry * jsstring);
  created : nat
}.

Definition with_currentTask (l : list Task) (w : World) : World :=
  mkWorld l (currentRunner w) (console w) (loop w) (columns w) (stdout w)
          (created w).

Definition with_currentRunner (r : option Runner) (w : World) : World :=
  mkWorld (currentTask w) r (console w) (loop w) (columns w) (stdout w)
          (created w).

Definition with_console (c : Console) (w : World) : World :=
  mkWorld (currentTask w) (currentRunner w) c (loop w) (columns w) (stdout w)
          (created w).

Definition with_loop (l : Loop) (w : World) : World :=
  mkWorld (currentTask w) (currentRunner w) (console w) l (columns w)
          (stdout w) (created w).

Definition with_stdout (o : list (Entry * jsstring)) (w : World) : World :=
  mkWorld (currentTask w) (currentRunner w) (console w) (loop w) (columns w)
          o (created w).

Definition with_created (n : nat) (w : World) : World :=
  mkWorld (currentTask w) (currentRunner w) (console w) (loop w) (columns w)
          (stdout w) n.

(** ** The state monad of the program *)

Definition M (A : Type) : Type := World -> A * World.

Definition ret {A} (a : A) : M A := fun w => (a, w).

Definition bind {A B} (m : M A) (k : A -> M B) : M B :=
  fun w => let (a, w') := m w in k a w'.

Declare Scope m_scope.
Delimit Scope m_scope with m.
Notation "x <- c ;; k" := (bind c (fun x => k))
  (at level 61, c at next level, right associativity) : m_scope.
Notation "c ;; k" := (bind c (fun _ => k))
  (at level 61, right associativity) : m_scope.
Open Scope m_scope.

Definition gets {A} (f : World -> A) : M A := fun w => (f w, w).
Definition modify (f : World -> World) : M unit := fun w => (tt, f w).

(** [xs.forEach(f)] and [xs.map(f)] for an effectful [f]. *)
Fixpoint mapM {A B} (f : A -> M B) (xs : list A) : M (list B) :=
  match xs with
  | [] => ret []
  | x :: rest => y <- f x ;; ys <- mapM f rest ;; ret (y :: ys)
  end.

(** [this.wait()].  [await this._completion] passes a rejection on and stops
    at a promise that has not settled; then the waits of the sub-tasks are
    gathered with [Promise.all]. *)
Fixpoint wait (this : Task) : Promise unit :=
  match _completion this with
  | Fulfilled _ => Promise_all (map wait (_subTasks this))
  | Rejected e => Rejected e
  | Unsettled => Unsettled
  end.

Definition setImmediate : M Immediate :=
  fun w =>
    let h := nextImmediate (loop w) in
    (h, with_loop (mkLoop (immediates (loop w) ++ [h]) (S h)) w).

Definition clearImmediate (h : Immediate) : M unit :=
  modify (fun w =>
    with_loop (mkLoop (List.remove Nat.eq_dec h (immediates (loop w)))
                      (nextImmediate (loop w))) w).

(** [process.stdout.columns || 80] *)
Definition available (w : World) : nat :=
  match columns w with
  | Some 0 | None => 80
  | Some n => n
  end.

(** A method of the runner on [this]: the runner of the process.  Tasks
    exist only once [run] has made the runner; without one nothing is
    done. *)
Definition onRunner (f : Runner -> M Runner) : M unit :=
  fun w =>
    match currentRunner w with
    | Some r => let (r', w') := f r w in (tt, with_currentRunner (Some r') w')
    | None => (tt, w)
    end.

(** [Runner.requestRerender], up to the body of the callback, which is
    [rerenderCallback] below. *)
Definition requestRerender : M unit :=
  onRunner (fun this =>
    match _rerender this with
    | None => h <- setImmediate ;; ret (with_rerender (Some h) this)
    | Some _ => ret this
    end).

(** [const current = currentTask.getStore(); if (current) { f(current) }] *)
Definition onCurrent (f : Task -> M Task) : M unit :=
  fun w =>
    match currentTask w with
    | current :: outer =>
        let (current', w') := f current w in
        (tt, with_currentTask (current' :: outer) w')
    | [] => (tt, w)
    end.

(** [currentTask.run(owner, task)]: [owner] is the store while [task] runs;
    the store that was current before is current again afterwards. *)
Definition currentTask_run {A} (owner : Task) (task : M A) : M (A * Task) :=
  fun w =>
    let (a, w') := task (with_currentTask (owner :: currentTask w) w) in
    match currentTask w' with
    | owner' :: outer => ((a, owner'), with_currentTask outer w')
    | [] => ((a, owner), w')
    end.

Section TaskRunner.

(** [stripAnsi] of the package strip-ansi. *)
Variable stripAnsi : jsstring -> jsstring.

(** [statusText]: the four styled labels are chalk's. *)
Variable statusText : Status -> jsstring.

(** [chalk.cyan] *)
Variable cyan : jsstring -> jsstring.

(** *** class Task *)

(** [set status(status)] *)
Definition set_status (status : Status) (this : Task) : M Task :=
  let currentStr := statusStrength (_status this) in
  let incomingStr := statusStrength status in
  if currentStr <? incomingStr then
    let this' := with_status status this in
    requestRerender ;; ret this'
  else ret this.

Definition addMessage (msg : jsstring) (this : Task) : M Task :=
  let stripped := stripAnsi msg in
  let this1 := with_msgCount (_msgCount this + 1) this in
  if length (_message this1) =? 0 then
    ret (with_message stripped this1)
  else
    let this2 :=
      with_message
        (combineStrings (_message this1) stripped (_msgCount this1)) this1 in
    requestRerender ;; ret this2.

Definition addLog (log : jsstring) (this : Task) : M Task :=
  ret (with_logs (_logs this ++ [log]) this).

Definition some (f : Task -> bool) (l : list Task) : bool := existsb f l.

Definition update (this : Task) : M Task :=
  if 0 <? length (_subTasks this) then
    if some (fun t => Status_eqb (_status t) Fail) (_subTasks this) then
      set_status Fail this
    else if some (fun t => Status_eqb (_status t) Warn) (_subTasks this) then
      set_status Warn this
    else if negb (some (fun t => Status_eqb (_status t) Pending)
                       (_subTasks this)) then
      set_status Done this
    else ret this
  else ret this.

Fixpoint lineLength (this : Task) (depth : nat) : nat :=
  fold_left
    (fun previous task => Nat.max previous (lineLength task (depth + 1)))
    (_subTasks this)
    (length (stripAnsi (_description this)) + 2 * depth).

(** The line of [render] for the node itself, before the lines of the
    sub-tasks are joined to it.  [avail] is [process.stdout.columns || 80],
    which the caller reads from the process state ([available]). *)
Definition renderLine (avail : nat) (this : Task) (depth lineLen : nat)
  : jsstring :=
  let pad := JS.repeat (lit " ") (depth * 2) in
  let postPad := JS.repeat (lit "| ") depth in
  let line :=
    padEnd (pad ++ _description this) lineLen
      ++ lit "  " ++ postPad ++ lit "[" ++ statusText (_status this)
      ++ lit "]" in
  let line :=
    if 0 <? length (_message this)
    then line ++ lit " - " ++ _message this
    else line in
  let visualLength := length (stripAnsi line) in
  let ansiCount := (Z.of_nat (length line) - Z.of_nat visualLength)%Z in
  if avail <? visualLength then
    slice0 line (Z.of_nat avail + ansiCount - 2) ++ [space; ellipsis]
  else line.

Fixpoint render (avail : nat) (this : Task) (depth lineLen : nat)
  : jsstring :=
  join [newline]
    (renderLine avail this depth lineLen
       :: map (fun t => render avail t (depth + 1) lineLen)
              (_subTasks this)).

(** A call [console.<entry>(message)] goes to what the entry point is
    bound to at the time.  [message] is [None] for a call without
    argument; the closures of the runner format it with a template
    literal. *)
Definition formatted (message : option jsstring) : jsstring :=
  match message with
  | Some m => m
  | None => lit "undefined"
  end.

Definition callHandler (h : Handler) (message : option jsstring) : M unit :=
  match h with
  | Native which =>
      modify (fun w =>
        with_stdout
          (stdout w ++ [(which, match message with Some m => m | None => [] end)])
          w)
  | consoleHandler =>
      onCurrent (fun current => addLog (formatted message) current)
  | warningHandler =>
      onCurrent (fun current =>
        current <- addLog (formatted message) current ;;
        set_status Warn current)
  | errorHandler =>
      onCurrent (fun current =>
        current <- addLog (formatted message) current ;;
        set_status Fail current)
  end.

Definition console_call (which : Entry) (message : option jsstring)
  : M unit :=
  c <- gets console ;;
  callHandler
    match which with
    | Log => console_log c
    | Warn_ => console_warn c
    | Error_ => console_error c
    | Info => console_info c
    end
    message.

(** A method that can throw returns [Some e] when it threw [e]. *)
Definition Thrown := option Error.

(** [xs.forEach(f)] for an [f] that can throw: the first throw ends it. *)
Fixpoint forEachThrow {A} (f : A -> M Thrown) (xs : list A) : M Thrown :=
  match xs with
  | [] => ret None
  | x :: rest =>
      r <- f x ;;
      match r with
      | Some e => ret (Some e)
      | None => forEachThrow f rest
      end
  end.

(** The header of [printLogs], the [padding] left of it, and the count
    [repeat] makes of its argument [padding / 2]: [repeat] truncates the
    number towards zero and refuses a negative count with a [RangeError],
    whose message quotes the argument as it was given. *)
Definition logHeader (this : Task) : jsstring :=
  lit "###### " ++ cyan (_description this) ++ lit " : "
    ++ ofNat (length (_logs this)) ++ lit " ######".

Definition padding (avail : nat) (this : Task) : Z :=
  Z.of_nat avail - Z.of_nat (length (stripAnsi (logHeader this))).

Definition headerPadding (avail : nat) (this : Task) : Z :=
  Z.quot (padding avail this) 2.

(** [padding / 2] for a negative [padding], as JavaScript prints the
    number: a whole number when [padding] is even, and one followed by
    [.5] when it is odd. *)
Definition half (padding : Z) : jsstring :=
  lit "-" ++ ofNat (Z.to_nat (Z.quot (- padding) 2))
    ++ (if Z.odd padding then lit ".5" else []).

Definition rangeError (padding : Z) : Error :=
  lit "Invalid count value: " ++ half padding.

Definition printOwnLogs (this : Task) : M Thrown :=
  if 0 <? length (_logs this) then
    avail <- gets available ;;
    let count := headerPadding avail this in
    if (count <? 0)%Z then ret (Some (rangeError (padding avail this)))
    else
      console_call Log
        (Some ([newline] ++ JS.repeat (lit " ") (Z.to_nat count)
                 ++ logHeader this)) ;;
      console_call Log None ;;
      mapM (fun l => console_call Log (Some l)) (_logs this) ;;
      ret None
  else ret None.

Fixpoint printLogs (this : Task) : M Thrown :=
  r <- printOwnLogs this ;;
  match r with
  | Some e => ret (Some e)
  | None =>
      (fix each (ts : list Task) : M Thrown :=
         match ts with
         | [] => ret None
         | t :: rest =>
             r <- printLogs t ;;
             match r with
             | Some e => ret (Some e)
             | None => each rest
             end
         end) (_subTasks this)
  end.

(** *** class Runner *)

(** [new Runner()]: the field initialisers save the entry points of
    [console] as they are, the constructor opens a painting session and
    binds the four entry points to its closures. *)
Definition newRunner : M Runner :=
  fun w =>
    let c := console w in
    let this :=
      mkRunner 0 (mkLogUpdate [] 0) [] None
               (console_log c) (console_error c) (console_warn c)
               (console_info c) in
    (this,
     with_console
       (mkConsole consoleHandler warningHandler errorHandler consoleHandler)
       (with_created (S (created w)) w)).

(** [this._roots.forEach((r) => r.update())]: the roots are updated in
    place, one after the other. *)
Definition updateRoots : M unit :=
  r <- gets currentRunner ;;
  match r with
  | Some this =>
      roots <- mapM update (_roots this) ;;
      onRunner (fun this => ret (with_roots roots this))
  | None => ret tt
  end.

Definition _render : M unit :=
  avail <- gets available ;;
  onRunner (fun this =>
    let lineLen :=
      fold_left (fun previous root => Nat.max previous (lineLength root 0))
                (_roots this) 0 in
    let renders := map (fun r => render avail r 0 lineLen) (_roots this) in
    let b := _backend this in
    ret (with_backend
           (mkLogUpdate (frames b ++ [join [newline] renders]) (doneCalls b))
           this)).

(** The callback [requestRerender] hands to [setImmediate]. *)
Definition rerenderCallback : M unit :=
  updateRoots ;;
  _render ;;
  onRunner (fun this => ret (with_rerender None this)).

Definition allDone : M Thrown :=
  r <- gets currentRunner ;;
  match r with
  | Some this =>
      match _rerender this with
      | Some h => clearImmediate h
      | None => ret tt
      end ;;
      updateRoots ;;
      _render ;;
      onRunner (fun this =>
        let b := _backend this in
        ret (with_backend (mkLogUpdate (frames b) (S (doneCalls b))) this)) ;;
      modify (fun w =>
        with_console
          (mkConsole (_consoleLog this) (_consoleWarn this)
                     (_consoleErr this) (_consoleInfo this)) w) ;;
      roots <- gets (fun w =>
        match currentRunner w with Some r => _roots r | None => [] end) ;;
      thrown <- forEachThrow printLogs roots ;;
      match thrown with
      | Some e => ret (Some e)
      | None => console_call Log (Some [newline]) ;; ret None
      end
  | None => ret None
  end.

Definition rootDone : M Thrown :=
  onRunner (fun this =>
    ret (with_terminatedRoots (_terminatedRoots this + 1) this)) ;;
  r <- gets currentRunner ;;
  match r with
  | Some this =>
      if _terminatedRoots this =? length (_roots this) then allDone
      else ret None
  | None => ret None
  end.

(** *** The event loop *)

(** One check phase: the immediates queued when the phase starts are run
    in order; one cleared in the meantime is skipped. *)
Fixpoint runImmediates (hs : list Immediate) : M unit :=
  match hs with
  | [] => ret tt
  | h :: rest =>
      queued <- gets (fun w => immediates (loop w)) ;;
      (if in_dec Nat.eq_dec h queued
       then clearImmediate h ;; rerenderCallback
       else ret tt) ;;
      runImmediates rest
  end.

Definition tick : M unit :=
  hs <- gets (fun w => immediates (loop w)) ;;
  runImmediates hs.

(** *** Operations and the entry points *)

(** An operation handed to [run] is a function [() => Promise<T>].  The
    model runs it to the end of the current turn of the loop: it is a
    computation on the process state that yields the state of the promise
    it returned.  A call it makes on an entry point of the library is a
    call of the definition below of the same name. *)
Definition Operation (T : Type) : Type := M (Promise T).

Definition settled {T} (p : Promise T) : Promise unit :=
  match p with
  | Unsettled => Unsettled
  | Fulfilled _ => Fulfilled tt
  | Rejected e => Rejected e
  end.

(** The [catch] block of [performTask]. *)
Definition performTask_catch {T} (e : Error) (owner : Task)
  : M (Promise T * Task) :=
  owner <- set_status Fail owner ;;
  owner <- addMessage e owner ;;
  requestRerender ;;
  ret (Rejected e, owner).

Definition performTask {T} (task : Operation T) (owner : Task)
  : M (Promise T * Task) :=
  ro <- currentTask_run owner task ;;
  let (r, owner) := ro : Promise T * Task in
  match r with
  | Fulfilled result =>
      match Promise_all (map wait (_subTasks owner)) with
      | Fulfilled _ =>
          owner <- set_status Done owner ;;
          requestRerender ;;
          ret (Fulfilled result, owner)
      | Rejected e => performTask_catch e owner
      | Unsettled => ret (Unsettled, owner)
      end
  | Rejected e => performTask_catch e owner
  | Unsettled => ret (Unsettled, owner)
  end.

(** [new Task(description, task, owner)]: the object and the promise its
    [_completion] field holds. *)
Definition newTask {T} (description : jsstring) (task : Operation T)
  : M (Promise T * Task) :=
  let this := mkTask description Pending [] [] [] 0 Unsettled in
  pt <- performTask task this ;;
  let (p, this) := pt : Promise T * Task in
  ret (p, with_completion (settled p) this).

(** [run].  At top level the [finally] block runs once [result] has
    settled; what [rootDone] throws there replaces the outcome of the
    promise. *)
Definition run {T} (description : jsstring) (inTask : Operation T)
  : M (Promise T) :=
  current <- gets (fun w => hd_error (currentTask w)) ;;
  match current with
  | None =>
      r <- gets currentRunner ;;
      match r with
      | None =>
          this <- newRunner ;;
          modify (with_currentRunner (Some this))
      | Some _ => ret tt
      end ;;
      pt <- newTask description inTask ;;
      let (result, taskObj) := pt : Promise T * Task in
      onRunner (fun this => ret (with_roots (_roots this ++ [taskObj]) this)) ;;
      match result with
      | Unsettled => ret Unsettled
      | _ =>
          thrown <- rootDone ;;
          match thrown with
          | Some e => ret (Rejected e)
          | None => ret result
          end
      end
  | Some _ =>
      pt <- newTask description inTask ;;
      let (completion, entry) := pt : Promise T * Task in
      onCurrent (fun current =>
        ret (with_subTasks (_subTasks current ++ [entry]) current)) ;;
      requestRerender ;;
      ret completion
  end.

Definition setMessage (msg : jsstring) : M unit :=
  onCurrent (fun current => addMessage msg current).

Definition setStatus (stat : Status) : M unit :=
  onCurrent (fun current => set_status stat current).

(** [runOptional]: [None] is [undefined]. *)
Definition runOptional {T} (description : jsstring) (inTask : Operation T)
  : M (Promise (option T)) :=
  run description
    (r <- inTask ;;
     match r with
     | Fulfilled v => ret (Fulfilled (Some v))
     | Rejected e =>
         setMessage e ;;
         setStatus Skip ;;
         ret (Fulfilled None)
     | Unsettled => ret Unsettled
     end).

End TaskRunner.

(** The process before the first call of [run]. *)
Definition initialWorld (cols : option nat) : World :=
  mkWorld [] None
          (mkConsole (Native Log) (Native Warn_) (Native Error_) (Native Info))
          (mkLoop [] 0) cols [] 0.

(** ** Mutations of a node within one turn of the loop *)

Section Mutations.

Variable stripAnsi : jsstring -> jsstring.

(** A status or message mutation of a node. *)
Inductive Mutation : Type :=
| SetStatus (s : Status)
| SetMessage (msg : jsstring).

Definition mutate (m : Mutation) (this : Task) : M Task :=
  match m with
  | SetStatus s => set_status s this
  | SetMessage msg => addMessage stripAnsi msg this
  end.

(** The mutations of a list, one after the other, with no turn of the
    loop in between. *)
Fixpoint mutations (ms : list Mutation) (this : Task) : M Task :=
  match ms with
  | [] => ret this
  | m :: rest => this' <- mutate m this ;; mutations rest this'
  end.

(** Whether the source reaches [requestRerender] in the mutation [m] of
    the node [this]: the guard of the setter, and the early return of
    [addMessage]. *)
Definition requests (m : Mutation) (this : Task) : bool :=
  match m with
  | SetStatus s => statusStrength (_status this) <? statusStrength s
  | SetMessage _ => negb (length (_message this) =? 0)
  end.

(** The node after [m], the owner left aside. *)
Definition mutated (m : Mutation) (this : Task) : Task :=
  match m with
  | SetStatus s =>
      if statusStrength (_status this) <? statusStrength s
      then with_status s this else this
  | SetMessage msg =>
      let this1 := with_msgCount (_msgCount this + 1) this in
      if length (_message this) =? 0
      then with_message (stripAnsi msg) this1
      else with_message
             (combineStrings (_message this) (stripAnsi msg)
                             (_msgCount this + 1)) this1
  end.


End Mutations.

(** [n] calls of [requestRerender] in a row. *)
Fixpoint requestRerenders (n : nat) : M unit :=
  match n with
  | O => ret tt
  | S n' => requestRerender ;; requestRerenders n'
  end.

(** The number of frames the painting backend of the runner was given. *)
Definition paints (w : World) : nat :=
  match currentRunner w with
  | Some r => length (frames (_backend r))
  | None => 0
  end.

(** The consecutive calls [this.status = s] for the [s] of a list. *)
Fixpoint setStatusCalls (calls : list Status) (this : Task) : M Task :=
  match calls with
  | [] => ret this
  | s :: rest => this' <- set_status s this ;; setStatusCalls rest this'
  end.

(** ** When [wait()] resolves

    The model above ends every operation within one turn of the loop.  To
    say when a promise settles, this module looks at a tree of tasks over
    the whole run: instants are natural numbers, [settlesAt] is the instant
    the node's own operation fulfils, and each child carries the instant of
    the [push] that appended it to [_subTasks] (a continuation that the
    operation left behind can push after the operation has settled).  The
    module describes the runs in which every operation fulfils: a
    rejection, which settles the promises that wait for it at once, is
    not part of it.  [await p] lets the function go on at the later of
    now and the instant [p] settles; [Promise.all] settles with the last of
    its promises; a snapshot [this._subTasks.map(...)] taken at [t] sees the
    children pushed up to [t]. *)
Module Timing.

#[warnings="-register-all"]
Inductive Node : Type := mkNode {
  settlesAt : nat;
  children : list (nat * Node)
}.

(** The children in [_subTasks] at the instant [t]. *)
Definition subTasksAt {A} (t : nat) (l : list (nat * A)) : list A :=
  map snd (filter (fun c => fst c <=? t) l).

(** [Promise.all(ps)] started at [t]. *)
Definition allAt (t : nat) (ps : list nat) : nat := fold_left Nat.max ps t.

(** [this.wait()] called at [called]: the instant it resolves.
    [completion] is the promise [performTask] returned for the node:
    the operation, then the waits of the sub-tasks present when it
    settled. *)
Fixpoint wait (this : Node) (called : nat) : nat :=
  let waits :=
    map (fun c => (fst c, wait (snd c))) (children this) in
  let completion :=
    allAt (settlesAt this)
          (map (fun w => w (settlesAt this))
               (subTasksAt (settlesAt this) waits)) in
  let resumed := Nat.max called completion in
  allAt resumed (map (fun w => w resumed) (subTasksAt resumed waits)).

(** [this._completion], the promise of [performTask]. *)
Definition completion (this : Node) : nat :=
  allAt (settlesAt this)
        (map (fun c => wait c (settlesAt this))
             (subTasksAt (settlesAt this) (children this))).

(** The instant every operation of the subtree has settled. *)
Fixpoint allSettled (this : Node) : nat :=
  fold_left Nat.max (map (fun c => allSettled (snd c)) (children this))
            (settlesAt this).

(** Every push of the subtree happens while the operation of the node
    pushed to is still running. *)
Fixpoint pushedInTime (this : Node) : bool :=
  forallb (fun c => (fst c <=? settlesAt this) && pushedInTime (snd c))
          (children this).

(** A parent whose operation settles at 0 after it started [childA] and
    left two timers behind: one starts [childB] at 3, one starts [childC]
    at 6.  The three operations settle at 5, 8 and 20. *)
Definition childA : Node := mkNode 5 [].
Definition childB : Node := mkNode 8 [].
Definition childC : Node := mkNode 20 [].
Definition lateParent : Node :=
  mkNode 0 [(0, childA); (3, childB); (6, childC)].

End Timing.

(** ** Notions the properties are stated with *)

(** Some child of the node has the status [s]. *)
Definition hasChild (s : Status) (this : Task) : Prop :=
  exists t, In t (_subTasks this) /\ _status t = s.

(** The status of the highest rank among [start] and the statuses of [l];
    of two of the same rank (none are, the ranks differ) the earlier. *)
Definition worst (l : list Status) (start : Status) : Status :=
  fold_left
    (fun a s => if statusStrength a <? statusStrength s then s else a)
    l start.

(** What a child's status weighs in the aggregate of [update] when no child
    is pending: [skip] weighs as [done]. *)
Definition counted (s : Status) : Status :=
  match s with
  | Skip => Done
  | _ => s
  end.

Definition isWarnOrFail (s : Status) : bool :=
  match s with
  | Warn | Fail => true
  | _ => false
  end.

(** A node as the constructor makes it, before its operation has run. *)
Definition freshTask (description : jsstring) : Task :=
  mkTask description Pending [] [] [] 0 Unsettled.

(** A settled leaf of a given status, to build examples with. *)
Definition leaf (s : Status) : Task :=
  mkTask [] s [] [] [] 0 (Fulfilled tt).

(** The longest common prefix of two strings, by recursion on them. *)
Fixpoint commonPrefix (a b : jsstring) : jsstring :=
  match a, b with
  | x :: a', y :: b' => if N.eqb x y then x :: commonPrefix a' b' else []
  | _, _ => []
  end.

(** [p] is a prefix of [s]. *)
Definition prefixOf (p s : jsstring) : Prop := exists rest, s = p ++ rest.

(** A process whose runner has just been made: what [run] has done at top
    level when it reaches [new Task]. *)
Definition activeWorld (cols : option nat) : World :=
  let (this, w) := newRunner (initialWorld cols) in
  with_currentRunner (Some this) w.


(** The redraw with the handle [h] is scheduled, and nothing else. *)
Definition scheduled (h : Immediate) (w : World) : Prop :=
  exists this,
    currentRunner w = Some this
    /\ _rerender this = Some h
    /\ immediates (loop w) = [h].

(** A computation that neither calls [logUpdate.create] nor clears
    [currentRunner]. *)
Definition keepsRunner {A} (m : M A) : Prop :=
  forall w,
    created (snd (m w)) = created w
    /\ (currentRunner w <> None -> currentRunner (snd (m w)) <> None).

(** The four entry points of [console] as the host has them. *)
Definition hostConsole : Console :=
  mkConsole (Native Log) (Native Warn_) (Native Error_) (Native Info).

Section Sessions.

Variable stripAnsi : jsstring -> jsstring.
Variable statusText : Status -> jsstring.
Variable cyan : jsstring -> jsstring.

(** [await run(first, async () => {})] in a process that has not run
    anything, ... *)
Definition firstSession (first : jsstring) (cols : option nat)
  : Promise unit * World :=
  run stripAnsi statusText cyan first (ret (Fulfilled tt))
      (initialWorld cols).

(** ... and then
    [await run(second, async () => { console.log(said) })]. *)
Definition secondSession (first second said : jsstring)
           (cols : option nat) : Promise unit * World :=
  run stripAnsi statusText cyan second
      (console_call Log (Some said) ;; ret (Fulfilled tt))
      (snd (firstSession first cols)).

End Sessions.

(** A label of 78 letters [x] on a node that is [done], for a terminal of
    80 columns. *)
Definition wideTask : Task :=
  mkTask (List.repeat 120%N 78) Done [] [] [] 0 (Fulfilled tt).

(** ** Notions for the rest of the code *)

(** The nodes of a subtree with their depths, in the order in which
    [render] and [printLogs] visit them: a node, then its sub-tasks one
    after the other, each with its own subtree. *)
Fixpoint nodesAt (this : Task) (depth : nat) : list (Task * nat) :=
  (this, depth) :: flat_map (fun t => nodesAt t (depth + 1)) (_subTasks this).

(** The status labels when chalk has colours off: the bare words. *)
Definition plainStatusText (s : Status) : jsstring :=
  match s with
  | Pending => lit "...."
  | Done => lit "Done"
  | Skip => lit "Skip"
  | Warn => lit "Warn"
  | Fail => lit "Fail"
  end.

Section Lines.

Variable stripAnsi : jsstring -> jsstring.
Variable statusText : Status -> jsstring.
Variable cyan : jsstring -> jsstring.

(** The line of [render] before the test on its width: the padded label,
    the marks, the status between brackets and the message if there is
    one. *)
Definition rawLine (this : Task) (depth lineLen : nat) : jsstring :=
  let pad := JS.repeat (lit " ") (depth * 2) in
  let postPad := JS.repeat (lit "| ") depth in
  let line :=
    padEnd (pad ++ _description this) lineLen
      ++ lit "  " ++ postPad ++ lit "[" ++ statusText (_status this)
      ++ lit "]" in
  if 0 <? length (_message this)
  then line ++ lit " - " ++ _message this
  else line.

(** The line of a node listed by [nodesAt]. *)
Definition linesOf (avail lineLen : nat) (nd : Task * nat) : jsstring :=
  renderLine stripAnsi statusText avail (fst nd) (snd nd) lineLen.

(** What [printLogs] gives to [console.log] for the node itself: nothing
    for a node without logs; else the header, an empty line and the
    logs. *)
Definition ownTranscript (avail : nat) (this : Task)
  : list (Entry * jsstring) :=
  if 0 <? length (_logs this) then
    (Log, [newline]
            ++ JS.repeat (lit " ")
                 (Z.to_nat (headerPadding stripAnsi cyan avail this))
            ++ logHeader cyan this)
      :: (Log, [])
      :: map (fun l => (Log, l)) (_logs this)
  else [].

(** ... and for its subtree, node by node. *)
Fixpoint transcript (avail : nat) (this : Task) : list (Entry * jsstring) :=
  ownTranscript avail this
    ++ flat_map (fun t => transcript avail t) (_subTasks this).

(** No header of the subtree is so wide that [repeat] is given a negative
    count. *)
Fixpoint headersFit (avail : nat) (this : Task) : bool :=
  ((length (_logs this) =? 0)
   || (0 <=? headerPadding stripAnsi cyan avail this)%Z)
  && forallb (fun t => headersFit avail t) (_subTasks this).

End Lines.

(** The status [update] hands to the setter, read off the statuses of the
    sub-tasks: none when there is no sub-task, or when one is pending and
    none is [fail] or [warn]. *)
Definition aggregate (l : list Status) : option Status :=
  if 0 <? length l then
    if existsb (fun s => Status_eqb s Fail) l then Some Fail
    else if existsb (fun s => Status_eqb s Warn) l then Some Warn
    else if negb (existsb (fun s => Status_eqb s Pending) l) then Some Done
    else None
  else None.

(** The rank a call of [console.<entry>] raises the current task to, when
    the runner has redirected [console]. *)
Definition entryStrength (entry : Entry) : nat :=
  match entry with
  | Warn_ => statusStrength Warn
  | Error_ => statusStrength Fail
  | Log | Info => 0
  end.

(** What a redraw request leaves of the process: the current tasks, what
    was printed, and of the runner the counter, the backend and the
    roots. *)
Definition runnerCore (r : Runner) : nat * LogUpdate * list Task :=
  (_terminatedRoots r, _backend r, _roots r).

Definition sameSession (w w' : World) : Prop :=
  currentTask w' = currentTask w
  /\ stdout w' = stdout w
  /\ option_map runnerCore (currentRunner w')
     = option_map runnerCore (currentRunner w).

(** The entry points of [console] a runner saved when it was made. *)
Definition savedHandlers (r : Runner) : Handler * Handler * Handler * Handler :=
  (_consoleLog r, _consoleErr r, _consoleWarn r, _consoleInfo r).

(** The part of the process an operation has no entry point to change:
    what [console] is bound to, the number of painting sessions, the width
    of the terminal and, of the runner, the counter of settled roots, the
    roots, the backend and the saved entry points. *)
Definition fixedPart (w : World) :=
  (console w, created w, columns w,
   option_map (fun r => (_terminatedRoots r, _roots r, _backend r,
                         savedHandlers r))
              (currentRunner w)).

(** A computation that leaves the fixed part and the stack of current
    tasks as they are. *)
Definition calm {A} (m : M A) : Prop :=
  forall w,
    fixedPart (snd (m w)) = fixedPart w
    /\ currentTask (snd (m w)) = currentTask w.

(** A computation that, run inside a task, leaves the fixed part and the
    enclosing tasks as they are and ends inside the same task: it may
    change the current task itself, ask for redraws and print. *)
Definition tame {A} (m : M A) : Prop :=
  forall w,
    currentTask w <> [] ->
    fixedPart (snd (m w)) = fixedPart w
    /\ tl (currentTask (snd (m w))) = tl (currentTask w)
    /\ currentTask (snd (m w)) <> [].


(** The runner holds the handle [h] in [_rerender] while the loop has no
    immediate to run: a request for a redraw finds one scheduled, and none
    will run. *)
Definition deaf (h : Immediate) (w : World) : Prop :=
  exists this,
    currentRunner w = Some this
    /\ _rerender this = Some h
    /\ immediates (loop w) = [].

Definition keepsDeaf {A} (m : M A) : Prop :=
  forall h w, deaf h w -> deaf h (snd (m w)).

(** ** Notions for [runOptional] *)




(** * The variant of the library in [unnamed/part_000]

    The file is the same module with one change of design: a node carries
    a [TaskInfo] (label, status, message) that [updateInfo] rewrites, the
    message is replaced instead of merged, and [performTask] rejects when
    the operation leaves the status [fail].  The definitions below embed
    it on the same process state.

    An object of the class [TaskState] has the fields of a [Task] under
    other names: [info.label] is [_description], [info.status] is
    [_status], [info.message] is [_message], [subTasks], [logs] and
    [completion] are [_subTasks], [_logs] and [_completion]; [_msgCount]
    has no counterpart and stays 0.  [lineLength], [wait], [addLog],
    [Runner.requestRerender] and the [Runner] constructor have the same
    text in both files up to these names, and are the definitions above.
    [render] differs in the units it appends to a line it has cut, and is
    embedded again, with [Runner._render] that calls it. *)
Module Part000.

Record TaskInfo : Type := mkTaskInfo {
  label : jsstring;
  status : Status;
  message : jsstring
}.

(** [Partial<TaskInfo>]: a key the object does not have is [None]. *)
Record PartialTaskInfo : Type := mkPartial {
  has_label : option jsstring;
  has_status : option Status;
  has_message : option jsstring
}.

(** [this.info] and the assignment [this.info = i]. *)
Definition info (this : Task) : TaskInfo :=
  mkTaskInfo (_description this) (_status this) (_message this).

Definition with_info (i : TaskInfo) (this : Task) : Task :=
  mkTask (label i) (status i) (_subTasks this) (_logs this) (message i)
         (_msgCount this) (_completion this).

(** [{ ...a, ...b }] *)
Definition spread (a : TaskInfo) (b : PartialTaskInfo) : TaskInfo :=
  mkTaskInfo
    (match has_label b with Some l => l | None => label a end)
    (match has_status b with Some s => s | None => status a end)
    (match has_message b with Some m => m | None => message a end).

(** [_.omit(info, 'status')] *)
Definition omitStatus (i : PartialTaskInfo) : PartialTaskInfo :=
  mkPartial (has_label i) None (has_message i).

(** [info || {}] *)
Definition orEmpty (i : option PartialTaskInfo) : PartialTaskInfo :=
  match i with
  | Some i => i
  | None => mkPartial None None None
  end.

(** [{ status: s }] *)
Definition justStatus (s : Status) : PartialTaskInfo :=
  mkPartial None (Some s) None.

Section TaskRunner.

Variable stripAnsi : jsstring -> jsstring.
Variable statusText : Status -> jsstring.
Variable cyan : jsstring -> jsstring.

(** *** class TaskState *)

(** [setStatus] assigns [this.info.status] in place. *)
Definition setStatus (status0 : Status) (this : Task) : Task :=
  let currentStr := statusStrength (status (info this)) in
  let incomingStr := statusStrength status0 in
  if currentStr <? incomingStr then
    with_info
      (mkTaskInfo (label (info this)) status0 (message (info this))) this
  else this.

Definition rerender : M unit := requestRerender.

(** Every status of the type is a non-empty string, so [if (info.status)]
    asks whether the key is there. *)
Definition updateInfo (i : PartialTaskInfo) (this : Task) : M Task :=
  let this :=
    match has_status i with
    | Some s => setStatus s this
    | None => this
    end in
  let noStatus := omitStatus i in
  let this := with_info (spread (info this) noStatus) this in
  rerender ;; ret this.

(** The method [update()] of the class. *)
Definition TaskState_update (this : Task) : M Task :=
  if 0 <? length (_subTasks this) then
    if some (fun t => Status_eqb (status (info t)) Fail) (_subTasks this) then
      updateInfo (justStatus Fail) this
    else if some (fun t => Status_eqb (status (info t)) Warn)
                 (_subTasks this) then
      updateInfo (justStatus Warn) this
    else if negb (some (fun t => Status_eqb (status (info t)) Pending)
                       (_subTasks this)) then
      updateInfo (justStatus Done) this
    else ret this
  else ret this.

(** The string literal [render] appends to a line it has cut: in this file
    a space and the three units U+00E2, U+20AC, U+00A6. *)
Definition cutMark : jsstring := [space; 226%N; 8364%N; 166%N].

Definition renderLine (avail : nat) (this : Task) (depth lineLen : nat)
  : jsstring :=
  let pad := JS.repeat (lit " ") (depth * 2) in
  let postPad := JS.repeat (lit "| ") depth in
  let line :=
    padEnd (pad ++ label (info this)) lineLen
      ++ lit "  " ++ postPad ++ lit "[" ++ statusText (status (info this))
      ++ lit "]" in
  let line :=
    if 0 <? length (message (info this))
    then line ++ lit " - " ++ message (info this)
    else line in
  let visualLength := length (stripAnsi line) in
  let ansiCount := (Z.of_nat (length line) - Z.of_nat visualLength)%Z in
  if avail <? visualLength then
    slice0 line (Z.of_nat avail + ansiCount - 2) ++ cutMark
  else line.

Fixpoint render (avail : nat) (this : Task) (depth lineLen : nat)
  : jsstring :=
  join [newline]
    (renderLine avail this depth lineLen
       :: map (fun t => render avail t (depth + 1) lineLen)
              (_subTasks this)).

(** The closures of the [Runner] constructor. *)
Definition callHandler (h : Handler) (message : option jsstring) : M unit :=
  match h with
  | Native which =>
      modify (fun w =>
        with_stdout
          (stdout w ++ [(which, match message with Some m => m | None => [] end)])
          w)
  | consoleHandler =>
      onCurrent (fun current => addLog (formatted message) current)
  | warningHandler =>
      onCurrent (fun current =>
        current <- addLog (formatted message) current ;;
        updateInfo (justStatus Warn) current)
  | errorHandler =>
      onCurrent (fun current =>
        current <- addLog (formatted message) current ;;
        updateInfo (justStatus Fail) current)
  end.

Definition console_call (which : Entry) (message : option jsstring)
  : M unit :=
  c <- gets console ;;
  callHandler
    match which with
    | Log => console_log c
    | Warn_ => console_warn c
    | Error_ => console_error c
    | Info => console_info c
    end
    message.

Definition printOwnLogs (this : Task) : M Thrown :=
  if 0 <? length (_logs this) then
    avail <- gets available ;;
    let count := headerPadding stripAnsi cyan avail this in
    if (count <? 0)%Z then
      ret (Some (rangeError (padding stripAnsi cyan avail this)))
    else
      console_call Log
        (Some ([newline] ++ JS.repeat (lit " ") (Z.to_nat count)
                 ++ logHeader cyan this)) ;;
      console_call Log None ;;
      mapM (fun l => console_call Log (Some l)) (_logs this) ;;
      ret None
  else ret None.

Fixpoint printLogs (this : Task) : M Thrown :=
  r <- printOwnLogs this ;;
  match r with
  | Some e => ret (Some e)
  | None =>
      (fix each (ts : list Task) : M Thrown :=
         match ts with
         | [] => ret None
         | t :: rest =>
             r <- printLogs t ;;
             match r with
             | Some e => ret (Some e)
             | None => each rest
             end
         end) (_subTasks this)
  end.

(** *** class Runner *)

Definition updateRoots : M unit :=
  r <- gets currentRunner ;;
  match r with
  | Some this =>
      roots <- mapM TaskState_update (_roots this) ;;
      onRunner (fun this => ret (with_roots roots this))
  | None => ret tt
  end.

Definition _render : M unit :=
  avail <- gets available ;;
  onRunner (fun this =>
    let lineLen :=
      fold_left (fun previous root =>
                   Nat.max previous (lineLength stripAnsi root 0))
                (_roots this) 0 in
    let renders := map (fun r => render avail r 0 lineLen) (_roots this) in
    let b := _backend this in
    ret (with_backend
           (mkLogUpdate (frames b ++ [join [newline] renders]) (doneCalls b))
           this)).

Definition allDone : M Thrown :=
  r <- gets currentRunner ;;
  match r with
  | Some this =>
      match _rerender this with
      | Some h => clearImmediate h
      | None => ret tt
      end ;;
      updateRoots ;;
      _render ;;
      onRunner (fun this =>
        let b := _backend this in
        ret (with_backend (mkLogUpdate (frames b) (S (doneCalls b))) this)) ;;
      modify (fun w =>
        with_console
          (mkConsole (_consoleLog this) (_consoleWarn this)
                     (_consoleErr this) (_consoleInfo this)) w) ;;
      roots <- gets (fun w =>
        match currentRunner w with Some r => _roots r | None => [] end) ;;
      thrown <- forEachThrow printLogs roots ;;
      match thrown with
      | Some e => ret (Some e)
      | None => console_call Log (Some [newline]) ;; ret None
      end
  | None => ret None
  end.

Definition rootDone : M Thrown :=
  onRunner (fun this =>
    ret (with_terminatedRoots (_terminatedRoots this + 1) this)) ;;
  r <- gets currentRunner ;;
  match r with
  | Some this =>
      if _terminatedRoots this =? length (_roots this) then allDone
      else ret None
  | None => ret None
  end.

(** *** [performTask] and the entry points *)

(** The [catch] block of [performTask]; [e] is [e.message]. *)
Definition performTask_catch {T} (e : Error) (owner : Task)
  : M (Promise T * Task) :=
  owner <- updateInfo (mkPartial None (Some Fail) (Some e)) owner ;;
  rerender ;;
  ret (Rejected e, owner).

(** [throw new Error(owner.info.message)] inside the [try] block lands in
    the [catch] block with that message. *)
Definition performTask {T} (task : Operation T) (owner : Task)
  : M (Promise T * Task) :=
  ro <- currentTask_run owner task ;;
  let (r, owner) := ro : Promise T * Task in
  match r with
  | Fulfilled result =>
      match Promise_all (map wait (_subTasks owner)) with
      | Fulfilled _ =>
          if Status_eqb (status (info owner)) Fail then
            performTask_catch (message (info owner)) owner
          else
            owner <- updateInfo (justStatus Done) owner ;;
            rerender ;;
            ret (Fulfilled result, owner)
      | Rejected e => performTask_catch e owner
      | Unsettled => ret (Unsettled, owner)
      end
  | Rejected e => performTask_catch e owner
  | Unsettled => ret (Unsettled, owner)
  end.

(** The object of the constructor before [performTask] is called: the
    field initialisers, and [info] spread over the defaults. *)
Definition initialState (i : PartialTaskInfo) : Task :=
  with_info (spread (mkTaskInfo (lit "Unknown") Pending []) i)
            (mkTask [] Pending [] [] [] 0 Unsettled).

(** [new TaskState(task, runner, info)]: the object and the promise its
    [completion] field holds. *)
Definition newTaskState {T} (task : Operation T) (i : PartialTaskInfo)
  : M (Promise T * Task) :=
  let this := initialState i in
  pt <- performTask task this ;;
  let (p, this) := pt : Promise T * Task in
  ret (p, with_completion (settled p) this).

(** [run]; [i] is [None] when the call has no second argument. *)
Definition run {T} (inTask : Operation T) (i : option PartialTaskInfo)
  : M (Promise T) :=
  current <- gets (fun w => hd_error (currentTask w)) ;;
  match current with
  | None =>
      r <- gets currentRunner ;;
      match r with
      | None =>
          this <- newRunner ;;
          modify (with_currentRunner (Some this))
      | Some _ => ret tt
      end ;;
      pt <- newTaskState inTask (orEmpty i) ;;
      let (result, taskObj) := pt : Promise T * Task in
      onRunner (fun this => ret (with_roots (_roots this ++ [taskObj]) this)) ;;
      match result with
      | Unsettled => ret Unsettled
      | _ =>
          thrown <- rootDone ;;
          match thrown with
          | Some e => ret (Rejected e)
          | None => ret result
          end
      end
  | Some _ =>
      pt <- newTaskState inTask (orEmpty i) ;;
      let (completion, entry) := pt : Promise T * Task in
      onCurrent (fun current =>
        ret (with_subTasks (_subTasks current ++ [entry]) current)) ;;
      rerender ;;
      ret completion
  end.

(** The exported function [update]. *)
Definition update (i : PartialTaskInfo) : M unit :=
  onCurrent (fun current => updateInfo i current).

(** [tryRun]: [None] is [undefined]. *)
Definition tryRun {T} (inTask : Operation T) (i : option PartialTaskInfo)
  : M (Promise (option T)) :=
  run
    (r <- inTask ;;
     match r with
     | Fulfilled v => ret (Fulfilled (Some v))
     | Rejected e =>
         update (mkPartial None (Some Skip) (Some e)) ;;
         ret (Fulfilled None)
     | Unsettled => ret Unsettled
     end)
    i.

End TaskRunner.

(** A sequence of calls of [updateInfo] on one node. *)
Fixpoint updateInfos (calls : list PartialTaskInfo) (this : Task) : M Task :=
  match calls with
  | [] => ret this
  | i :: rest => this <- updateInfo i this ;; updateInfos rest this
  end.

(** The values a sequence of calls gives for one key, in order. *)
Definition given {A} (key : PartialTaskInfo -> option A)
  (calls : list PartialTaskInfo) : list A :=
  flat_map (fun i => match key i with Some a => [a] | None => [] end) calls.

End Part000.

(** * Properties *)

(** ** The status lattice and the setter *)

Lemma statusStrength_inj (a b : Status) :
  statusStrength a = statusStrength b -> a = b.
Proof. destruct a, b; simpl; intro H; congruence || discriminate H. Qed.

(** The node a call of the setter leaves, whatever the process state. *)
Lemma set_status_task (s : Status) (this : Task) (w : World) :
  fst (set_status s this w) =
  if statusStrength (_status this) <? statusStrength s
  then with_status s this else this.
Proof.
  unfold set_status.
  destruct (statusStrength (_status this) <? statusStrength s); [|reflexivity].
  unfold bind. destruct (requestRerender w). reflexivity.
Qed.

Lemma set_status_strength (s : Status) (this : Task) (w : World) :
  statusStrength (_status (fst (set_status s this w))) =
  Nat.max (statusStrength (_status this)) (statusStrength s).
Proof.
  rewrite set_status_task.
  destruct (Nat.ltb_spec (statusStrength (_status this)) (statusStrength s));
    simpl; lia.
Qed.

Lemma setStatusCalls_step (s : Status) (rest : list Status) (this : Task)
      (w : World) :
  fst (setStatusCalls (s :: rest) this w) =
  fst (setStatusCalls rest (fst (set_status s this w))
                      (snd (set_status s this w))).
Proof.
  simpl. unfold bind. destruct (set_status s this w). reflexivity.
Qed.

Lemma setStatusCalls_strength (calls : list Status) :
  forall (this : Task) (w : World),
    statusStrength (_status (fst (setStatusCalls calls this w))) =
    fold_left Nat.max (map statusStrength calls)
              (statusStrength (_status this)).
Proof.
  induction calls as [|s rest IH]; intros this w.
  - reflexivity.
  - rewrite setStatusCalls_step, IH, set_status_strength. reflexivity.
Qed.

Lemma setStatusCalls_In (calls : list Status) :
  forall (this : Task) (w : World),
    In (_status (fst (setStatusCalls calls this w))) (_status this :: calls).
Proof.
  induction calls as [|s rest IH]; intros this w.
  - left. reflexivity.
  - rewrite setStatusCalls_step.
    specialize (IH (fst (set_status s this w)) (snd (set_status s this w))).
    rewrite set_status_task in IH at 2.
    destruct (statusStrength (_status this) <? statusStrength s);
      simpl in *; intuition.
Qed.

Lemma fold_max_ge (l : list nat) :
  forall a, a <= fold_left Nat.max l a.
Proof.
  induction l as [|x l IH]; intro a; simpl; [lia|].
  specialize (IH (Nat.max a x)). lia.
Qed.

Lemma fold_max_In (l : list nat) :
  forall a x, In x l -> x <= fold_left Nat.max l a.
Proof.
  induction l as [|y l IH]; intros a x H; simpl in *; [contradiction|].
  destruct H as [->|H].
  - pose proof (fold_max_ge l (Nat.max a x)). lia.
  - apply IH, H.
Qed.

Lemma fold_max_perm (l l' : list nat) :
  Permutation l l' ->
  forall a, fold_left Nat.max l a = fold_left Nat.max l' a.
Proof.
  induction 1 as [|x l l' _ IH|x y l|l l' l'' _ IH1 _ IH2]; intro a; simpl.
  - reflexivity.
  - apply IH.
  - f_equal. lia.
  - rewrite IH1. apply IH2.
Qed.

(** C1.  The ranking is [...] (0) < [done] (1) < [warn] (2) < [fail] (3)
    < [skip] (4).  Whatever the node, the process state and the calls of
    the setter: the status the node ends with is one of the statuses it
    had or was given, none of them ranks higher, and a permutation of the
    calls ends with the same status; a call whose argument does not rank
    above the current status changes neither the node nor the process.
    One call leaves the higher-ranked of the status the node had and the
    status given, for each of the twenty-five pairs.  [fail] then [warn]
    leaves [fail]; [skip] and [fail] in either order leave [skip]. *)
Theorem C1_status_escalation :
  forall (this : Task) (calls : list Status) (w : World),
    let final := _status (fst (setStatusCalls calls this w)) in
    In final (_status this :: calls)
    /\ (forall s, In s (_status this :: calls) ->
                  statusStrength s <= statusStrength final)
    /\ (forall calls' w', Permutation calls calls' ->
          _status (fst (setStatusCalls calls' this w')) = final)
    /\ (forall s w0, statusStrength s <= statusStrength (_status this) ->
          set_status s this w0 = (this, w0))
    /\ (statusStrength (_status this) < statusStrength Fail ->
          _status (fst (setStatusCalls [Fail; Warn] this w)) = Fail)
    /\ map statusStrength [Pending; Done; Warn; Fail; Skip] = [0; 1; 2; 3; 4]
    /\ (forall s t w0,
          _status (fst (set_status t (with_status s this) w0))
          = match s, t with
            | Skip, _ | _, Skip => Skip
            | Fail, _ | _, Fail => Fail
            | Warn, _ | _, Warn => Warn
            | Done, _ | _, Done => Done
            | Pending, Pending => Pending
            end)
    /\ _status (fst (setStatusCalls [Warn]
                       (with_status Fail this) w)) = Fail
    /\ _status (fst (setStatusCalls [Skip; Fail]
                       (with_status Pending this) w)) = Skip
    /\ _status (fst (setStatusCalls [Fail; Skip]
                       (with_status Pending this) w)) = Skip
    /\ _status (fst (setStatusCalls [Warn; Done; Fail; Done; Warn]
                       (with_status Pending this) w)) = Fail
    /\ _status (fst (setStatusCalls [Done; Pending]
                       (with_status Pending this) w)) = Done.
Proof.
  intros this calls w final. subst final.
  assert (E : forall cs s,
             statusStrength
               (_status (fst (setStatusCalls cs (with_status s this) w)))
             = fold_left Nat.max (map statusStrength cs) (statusStrength s)).
  { intros cs s. rewrite setStatusCalls_strength. reflexivity. }
  split; [apply setStatusCalls_In|].
  split.
  { intros s H. rewrite setStatusCalls_strength.
    destruct H as [<-|H].
    + apply fold_max_ge.
    + apply fold_max_In, in_map, H. }
  split.
  { intros calls' w' HP. apply statusStrength_inj.
    rewrite !setStatusCalls_strength.
    symmetry. apply fold_max_perm, Permutation_map, HP. }
  split.
  { intros s w0 H. unfold set_status.
    destruct (Nat.ltb_spec (statusStrength (_status this)) (statusStrength s));
      [lia|reflexivity]. }
  split.
  { intros H. apply statusStrength_inj.
    rewrite setStatusCalls_strength. simpl in *. lia. }
  split; [reflexivity|].
  split.
  { intros s t w0. rewrite set_status_task. destruct s, t; reflexivity. }
  repeat split; apply statusStrength_inj; rewrite E; reflexivity.
Qed.

(** ** Aggregation of the children's statuses *)

Lemma some_status_iff (s : Status) (this : Task) :
  some (fun t => Status_eqb (_status t) s) (_subTasks this) = true
  <-> hasChild s this.
Proof.
  unfold some, hasChild. rewrite existsb_exists.
  split; intros (t & Hin & H); exists t; split; auto.
  - destruct (_status t), s; simpl in H; congruence.
  - rewrite H. destruct s; reflexivity.
Qed.

Lemma some_status_false (s : Status) (this : Task) :
  some (fun t => Status_eqb (_status t) s) (_subTasks this) = false
  <-> ~ hasChild s this.
Proof.
  rewrite <- some_status_iff.
  destruct (some _ _); split; intro H; congruence || (exfalso; auto).
Qed.

Lemma update_cases (this : Task) (w : World) :
  _subTasks this <> [] ->
  (hasChild Fail this /\ update this w = set_status Fail this w)
  \/ (~ hasChild Fail this /\ hasChild Warn this
      /\ update this w = set_status Warn this w)
  \/ (~ hasChild Fail this /\ ~ hasChild Warn this
      /\ ~ hasChild Pending this /\ update this w = set_status Done this w)
  \/ (~ hasChild Fail this /\ ~ hasChild Warn this
      /\ hasChild Pending this /\ update this w = (this, w)).
Proof.
  intro Hne. unfold update.
  destruct (_subTasks this) as [|c l] eqn:E; [congruence|].
  rewrite <- E. replace (0 <? length (_subTasks this)) with true
    by (rewrite E; reflexivity).
  destruct (some _ _) eqn:F.
  { left. split; [apply some_status_iff, F|reflexivity]. }
  apply some_status_false in F.
  destruct (some (fun t => Status_eqb (_status t) Warn) _) eqn:W.
  { right; left. repeat split; auto. apply some_status_iff, W. }
  apply some_status_false in W.
  destruct (some (fun t => Status_eqb (_status t) Pending) _) eqn:P.
  - right; right; right. repeat split; auto. apply some_status_iff, P.
  - right; right; left. apply some_status_false in P. repeat split; auto.
Qed.

Lemma set_status_only_status (s : Status) (this : Task) (w : World) :
  fst (set_status s this w) =
  with_status (_status (fst (set_status s this w))) this.
Proof.
  rewrite set_status_task.
  destruct (statusStrength (_status this) <? statusStrength s);
    destruct this; reflexivity.
Qed.

(** C2.  For a node with at least one child, [update] changes at most the
    status of the node, and the status it leaves is: the higher-ranked of
    the node's own and [fail] when some child is [fail]; else the
    higher-ranked of its own and [warn] when some child is [warn]; else the
    higher-ranked of its own and [done] when no child is pending; else the
    node and the process are as before.  So children that are [done] or
    [warn], one of them [warn], make a node that ranks below [fail] a
    [warn] one; a [fail] child makes it [fail]; children that are pending
    or [done], one of them pending, leave a pending node pending. *)
Theorem C2_update_aggregation :
  forall (this : Task) (w : World),
    _subTasks this <> [] ->
    let this' := fst (update this w) in
    this' = with_status (_status this') this
    /\ (hasChild Fail this ->
        statusStrength (_status this') =
        Nat.max (statusStrength (_status this)) (statusStrength Fail))
    /\ (~ hasChild Fail this -> hasChild Warn this ->
        statusStrength (_status this') =
        Nat.max (statusStrength (_status this)) (statusStrength Warn))
    /\ (~ hasChild Fail this -> ~ hasChild Warn this ->
        ~ hasChild Pending this ->
        statusStrength (_status this') =
        Nat.max (statusStrength (_status this)) (statusStrength Done))
    /\ (~ hasChild Fail this -> ~ hasChild Warn this ->
        hasChild Pending this -> update this w = (this, w))
    /\ ((forall t, In t (_subTasks this) ->
           _status t = Done \/ _status t = Warn) ->
        hasChild Warn this ->
        statusStrength (_status this) < statusStrength Fail ->
        _status this' = Warn)
    /\ ((forall t, In t (_subTasks this) ->
           _status t = Done \/ _status t = Fail) ->
        hasChild Fail this ->
        statusStrength (_status this) < statusStrength Fail ->
        _status this' = Fail)
    /\ ((forall t, In t (_subTasks this) ->
           _status t = Pending \/ _status t = Done) ->
        hasChild Pending this ->
        _status this = Pending ->
        _status this' = Pending).
Proof.
  intros this w Hne this'. subst this'.
  assert (Hdw : (forall t, In t (_subTasks this) ->
                   _status t = Done \/ _status t = Warn) ->
                ~ hasChild Fail this).
  { intros H (t & Hin & E). destruct (H t Hin); congruence. }
  assert (Hpd : (forall t, In t (_subTasks this) ->
                   _status t = Pending \/ _status t = Done) ->
                ~ hasChild Fail this /\ ~ hasChild Warn this).
  { intros H. split; intros (t & Hin & E); destruct (H t Hin); congruence. }
  destruct (update_cases this w Hne)
    as [(F & E)|[(F & W & E)|[(F & W & P & E)|(F & W & P & E)]]];
    rewrite E; clear E;
    (split; [try apply set_status_only_status; destruct this; reflexivity|]);
    repeat split; intros;
    try contradiction;
    try (exfalso; tauto);
    try apply set_status_strength;
    try reflexivity;
    try (apply statusStrength_inj; rewrite set_status_strength;
         simpl in *; lia);
    try (simpl; assumption).
  all: try (destruct Hpd as [? ?]; auto; contradiction).
Qed.

(** At a node above three children that are [done], [warn] and [done]. *)
Lemma C2_update_aggregation_witness :
  _subTasks (with_subTasks [leaf Done; leaf Warn; leaf Done] (freshTask []))
    <> []
  /\ _status
       (fst (update
               (with_subTasks [leaf Done; leaf Warn; leaf Done] (freshTask []))
               (initialWorld None))) = Warn.
Proof.
  assert (H : _subTasks
                (with_subTasks [leaf Done; leaf Warn; leaf Done] (freshTask []))
              <> []) by discriminate.
  split; [exact H|].
  apply (C2_update_aggregation _ (initialWorld None) H).
  - intros t [<-|[<-|[<-|[]]]]; simpl; auto.
  - exists (leaf Warn). simpl. auto.
  - simpl. lia.
Defined.

Lemma worst_strength (l : list Status) :
  forall start,
    statusStrength (worst l start) =
    fold_left Nat.max (map statusStrength l) (statusStrength start).
Proof.
  unfold worst.
  induction l as [|s l IH]; intro start; simpl; [reflexivity|].
  rewrite IH. f_equal.
  destruct (Nat.ltb_spec (statusStrength start) (statusStrength s)); lia.
Qed.

Lemma fold_max_bounded (l : list nat) (m : nat) :
  (forall x, In x l -> x <= m) ->
  forall a, fold_left Nat.max l a <= Nat.max a m.
Proof.
  induction l as [|y l IH]; intros Hle a; simpl; [lia|].
  assert (y <= m) by (apply Hle; left; reflexivity).
  etransitivity; [apply IH; intros x Hx; apply Hle; right; exact Hx|].
  lia.
Qed.

(** The maximum of a list whose greatest element is known. *)
Lemma fold_max_greatest (l : list nat) (m a : nat) :
  In m l -> (forall x, In x l -> x <= m) ->
  fold_left Nat.max l a = Nat.max a m.
Proof.
  intros Hin Hle.
  apply Nat.le_antisymm.
  - apply fold_max_bounded, Hle.
  - pose proof (fold_max_ge l a). pose proof (fold_max_In l a m Hin). lia.
Qed.

Lemma no_warn_no_fail (this : Task) :
  ~ hasChild Fail this -> ~ hasChild Warn this ->
  filter isWarnOrFail (map _status (_subTasks this)) = [].
Proof.
  unfold hasChild. induction (_subTasks this) as [|c l IH]; intros F W.
  - reflexivity.
  - simpl. destruct (_status c) eqn:Ec; simpl.
    4: exfalso; apply W; exists c; split; [left; reflexivity|exact Ec].
    4: exfalso; apply F; exists c; split; [left; reflexivity|exact Ec].
    all: apply IH; intros (t & Ht & Et);
      [apply F|apply W]; exists t; split; auto; right; exact Ht.
Qed.

(** C3, as the specification states it, fails: above an only child that
    was skipped, [update] makes a pending node [done], while [skip] is the
    highest-ranked status of the two. *)
Lemma C3_counterexample :
  let parent := with_subTasks [leaf Skip] (freshTask []) in
  worst (map _status (_subTasks parent)) (_status parent) = Skip
  /\ _status (fst (update parent (initialWorld None))) = Done
  /\ _status (fst (update parent (initialWorld None)))
     <> worst (map _status (_subTasks parent)) (_status parent).
Proof. simpl. repeat split. discriminate. Qed.

(** C3, amended.  After [update] on a node with at least one child, the
    status of the node is the highest-ranked of its own status and the
    statuses of its children, where [skip] counts as [done]; and while a
    child is pending, only the [warn] and [fail] of the children count. *)
Theorem C3_update_worst :
  forall (this : Task) (w : World),
    _subTasks this <> [] ->
    let this' := fst (update this w) in
    (~ hasChild Pending this ->
     _status this' =
     worst (map (fun t => counted (_status t)) (_subTasks this))
           (_status this))
    /\ (hasChild Pending this ->
        _status this' =
        worst (filter isWarnOrFail (map _status (_subTasks this)))
              (_status this)).
Proof.
  intros this w Hne this'. subst this'.
  assert (Hin : forall s l,
             In s (map statusStrength l) -> exists x, In x l /\ statusStrength x = s).
  { intros s l H. apply in_map_iff in H. destruct H as (x & <- & H). eauto. }
  split; intro HP; apply statusStrength_inj; rewrite worst_strength.
  - assert (Hle : forall m,
               (forall t, In t (_subTasks this) ->
                          statusStrength (counted (_status t)) <= m) ->
               forall x,
                 In x (map statusStrength
                           (map (fun t => counted (_status t)) (_subTasks this)))
                 -> x <= m).
    { intros m H x Hx. rewrite map_map in Hx. apply in_map_iff in Hx.
      destruct Hx as (t & <- & Ht). auto. }
    assert (Hmem : forall t,
               In t (_subTasks this) ->
               In (statusStrength (counted (_status t)))
                  (map statusStrength
                       (map (fun t => counted (_status t)) (_subTasks this)))).
    { intros t Ht. rewrite map_map.
      apply (in_map (fun t => statusStrength (counted (_status t)))), Ht. }
    destruct (update_cases this w Hne)
      as [(F & E)|[(F & W & E)|[(F & W & P & E)|(F & W & P & E)]]];
      [| | |contradiction]; rewrite E, set_status_strength; symmetry.
    + destruct F as (t & Ht & Et).
      apply fold_max_greatest.
      * specialize (Hmem t Ht). rewrite Et in Hmem. exact Hmem.
      * apply Hle. intros u _. destruct (_status u); simpl; lia.
    + destruct W as (t & Ht & Et).
      apply fold_max_greatest.
      * specialize (Hmem t Ht). rewrite Et in Hmem. exact Hmem.
      * apply Hle. intros u Hu.
        destruct (_status u) eqn:Eu; simpl; try lia.
        exfalso. apply F. exists u. auto.
    + destruct (_subTasks this) as [|c l] eqn:Es; [congruence|].
      rewrite <- Es in *.
      assert (Hc : In c (_subTasks this)) by (rewrite Es; left; reflexivity).
      assert (Hall : forall u, In u (_subTasks this) ->
                               statusStrength (counted (_status u)) = 1).
      { intros u Hu. destruct (_status u) eqn:Eu; simpl; try reflexivity;
          exfalso; [apply P|apply W|apply F]; exists u; auto. }
      apply fold_max_greatest.
      * specialize (Hmem c Hc). rewrite (Hall c Hc) in Hmem. exact Hmem.
      * apply Hle. intros u Hu. rewrite (Hall u Hu). simpl. lia.
  - assert (Hmem : forall t,
               In t (_subTasks this) -> isWarnOrFail (_status t) = true ->
               In (statusStrength (_status t))
                  (map statusStrength
                       (filter isWarnOrFail (map _status (_subTasks this))))).
    { intros t Ht Hw. apply in_map, filter_In. split; [|exact Hw].
      apply (in_map _status), Ht. }
    assert (Hle : forall m,
               (forall t, In t (_subTasks this) ->
                          isWarnOrFail (_status t) = true ->
                          statusStrength (_status t) <= m) ->
               forall x,
                 In x (map statusStrength
                           (filter isWarnOrFail (map _status (_subTasks this))))
                 -> x <= m).
    { intros m H x Hx. apply in_map_iff in Hx. destruct Hx as (s & <- & Hs).
      apply filter_In in Hs. destruct Hs as (Hs & Hw).
      apply in_map_iff in Hs. destruct Hs as (t & <- & Ht). auto. }
    destruct (update_cases this w Hne)
      as [(F & E)|[(F & W & E)|[(F & W & P & E)|(F & W & P & E)]]];
      [| |contradiction|]; rewrite E; [rewrite set_status_strength; symmetry..|].
    + destruct F as (t & Ht & Et).
      apply fold_max_greatest.
      * specialize (Hmem t Ht). rewrite Et in Hmem. apply Hmem. reflexivity.
      * apply Hle. intros u _ Hw.
        destruct (_status u); simpl in *; try lia; discriminate.
    + destruct W as (t & Ht & Et).
      apply fold_max_greatest.
      * specialize (Hmem t Ht). rewrite Et in Hmem. apply Hmem. reflexivity.
      * apply Hle. intros u Hu Hw.
        destruct (_status u) eqn:Eu; simpl in *; try lia; try discriminate.
        exfalso. apply F. exists u. auto.
    + simpl. rewrite (no_warn_no_fail F W). reflexivity.
Qed.

(** At a node above a skipped child and a [warn] one. *)
Lemma C3_update_worst_witness :
  _subTasks (with_subTasks [leaf Skip; leaf Warn] (freshTask [])) <> []
  /\ _status
       (fst (update (with_subTasks [leaf Skip; leaf Warn] (freshTask []))
                    (initialWorld None))) = Warn.
Proof.
  assert (H : _subTasks (with_subTasks [leaf Skip; leaf Warn] (freshTask []))
              <> []) by discriminate.
  split; [exact H|].
  destruct (C3_update_worst _ (initialWorld None) H) as [HN _].
  rewrite HN; [reflexivity|].
  intros (t & [<-|[<-|[]]] & E); discriminate E.
Defined.

(** ** Messages *)

Lemma skipn_nth_error {A} (l : list A) :
  forall n x, nth_error l n = Some x -> skipn n l = x :: skipn (S n) l.
Proof.
  induction l as [|y l IH]; intros [|n] x H; simpl in *; try discriminate.
  - congruence.
  - apply IH, H.
Qed.

Lemma commonPrefix_nil_r (a : jsstring) : commonPrefix a [] = [].
Proof. destruct a; reflexivity. Qed.

Lemma commonLen_loop_spec (a b : jsstring) :
  forall fuel result,
    result + fuel = Nat.min (length a) (length b) ->
    commonLen_loop a b (Nat.min (length a) (length b)) result fuel =
    result + length (commonPrefix (skipn result a) (skipn result b)).
Proof.
  induction fuel as [|fuel IH]; intros result H; simpl.
  - assert (Hs : skipn result a = [] \/ skipn result b = []).
    { destruct (Nat.min_dec (length a) (length b)) as [E|E];
        [left|right]; apply skipn_all2; lia. }
    destruct Hs as [-> | ->]; [|rewrite commonPrefix_nil_r]; simpl; lia.
  - replace (result <? Nat.min (length a) (length b)) with true
      by (symmetry; apply Nat.ltb_lt; lia).
    destruct (nth_error a result) as [x|] eqn:Ea.
    2: { apply nth_error_None in Ea. lia. }
    destruct (nth_error b result) as [y|] eqn:Eb.
    2: { apply nth_error_None in Eb. lia. }
    rewrite (skipn_nth_error _ _ Ea), (skipn_nth_error _ _ Eb). simpl.
    destruct (N.eqb x y).
    + rewrite IH by lia. simpl. lia.
    + simpl. lia.
Qed.

Lemma commonLen_length (a b : jsstring) :
  commonLen a b = length (commonPrefix a b).
Proof.
  unfold commonLen. rewrite commonLen_loop_spec by lia. reflexivity.
Qed.

Lemma commonPrefix_firstn (a : jsstring) :
  forall b, firstn (length (commonPrefix a b)) a = commonPrefix a b.
Proof.
  induction a as [|x a IH]; intros [|y b]; simpl; try reflexivity.
  destruct (N.eqb x y); simpl; [rewrite IH|]; reflexivity.
Qed.

Lemma commonPrefix_length_le (a b : jsstring) :
  length (commonPrefix a b) <= length a.
Proof.
  revert b. induction a as [|x a IH]; intros [|y b]; simpl; try lia.
  destruct (N.eqb x y); simpl; [specialize (IH b)|]; lia.
Qed.

(** What [combineStrings] keeps of [a] is the longest common prefix. *)
Lemma slice_commonLen (a b : jsstring) :
  slice0 a (Z.of_nat (commonLen a b)) = commonPrefix a b.
Proof.
  unfold slice0. rewrite commonLen_length.
  pose proof (commonPrefix_length_le a b).
  replace (Z.of_nat (length (commonPrefix a b)) <? 0)%Z with false
    by (symmetry; apply Z.ltb_ge; lia).
  rewrite Z.min_l by lia. rewrite Nat2Z.id. apply commonPrefix_firstn.
Qed.

Lemma commonPrefix_prefix_l (a : jsstring) :
  forall b, prefixOf (commonPrefix a b) a.
Proof.
  induction a as [|x a IH]; intros [|y b]; simpl; try (eexists; reflexivity).
  destruct (N.eqb x y); [|eexists; reflexivity].
  destruct (IH b) as (rest & E). exists rest. simpl. congruence.
Qed.

Lemma commonPrefix_prefix_r (a : jsstring) :
  forall b, prefixOf (commonPrefix a b) b.
Proof.
  induction a as [|x a IH]; intros [|y b]; simpl; try (eexists; reflexivity).
  destruct (N.eqb_spec x y) as [->|]; [|eexists; reflexivity].
  destruct (IH b) as (rest & E). exists rest. simpl. congruence.
Qed.

Lemma commonPrefix_longest (p : jsstring) :
  forall a b, prefixOf p a -> prefixOf p b ->
              prefixOf p (commonPrefix a b).
Proof.
  induction p as [|x p IH]; intros a b (ra & Ea) (rb & Eb).
  - eexists; reflexivity.
  - subst a b. simpl. rewrite N.eqb_refl.
    destruct (IH (p ++ ra) (p ++ rb)) as (rest & E);
      try (eexists; reflexivity).
    exists rest. simpl. congruence.
Qed.

Lemma strip_plain_fuel :
  forall fuel s, length s < fuel -> Ansi.plain s = true ->
                 Ansi.stripFuel fuel s = s.
Proof.
  induction fuel as [|fuel IH]; intros s Hl Hp; [lia|].
  destruct s as [|c rest]; [reflexivity|].
  simpl in *. apply andb_prop in Hp. destruct Hp as (Hc & Hp).
  apply andb_prop in Hc. destruct Hc as (Hc & _).
  destruct (N.eqb c Ansi.ESC); [discriminate|].
  f_equal. apply IH; [lia|exact Hp].
Qed.

(** The concrete [strip] leaves a text without escape units as it is. *)
Lemma strip_plain (s : jsstring) : Ansi.plain s = true -> Ansi.strip s = s.
Proof. intro H. apply strip_plain_fuel; [lia|exact H]. Qed.

Lemma tick_idle stripAnsi statusText (w : World) :
  immediates (loop w) = [] -> tick stripAnsi statusText w = (tt, w).
Proof.
  intro H. unfold tick, bind, gets. rewrite H. reflexivity.
Qed.

(** C4, as the specification states it, fails: the text stored after the
    two messages is not the prefix directly followed by the ellipsis. *)
Lemma C4_counterexample :
  let w := initialWorld None in
  let first := addMessage Ansi.strip (lit "file1.txt") (freshTask []) w in
  let second :=
    addMessage Ansi.strip (lit "file2.txt") (fst first) (snd first) in
  _message (fst second) <> lit "file" ++ [ellipsis] ++ lit " [2]".
Proof. vm_compute. discriminate. Qed.

Section Messages.

Variable stripAnsi : jsstring -> jsstring.
Variable statusText : Status -> jsstring.

(** The one fact about strip-ansi the properties rest on: a sequence it
    removes starts with the unit ESC or the unit CSI. *)
Hypothesis stripAnsi_plain :
  forall s, Ansi.plain s = true -> stripAnsi s = s.

(** The node a call of [addMessage] leaves. *)
Lemma addMessage_task (msg : jsstring) (this : Task) (w : World) :
  fst (addMessage stripAnsi msg this w) = mutated stripAnsi (SetMessage msg) this.
Proof.
  unfold addMessage, mutated. simpl.
  destruct (length (_message this) =? 0); [reflexivity|].
  unfold bind. destruct (requestRerender w). reflexivity.
Qed.

(** C4, amended.  On a node without message, [file1.txt] and then
    [file2.txt] leave the text made of [file], a space, the ellipsis, a
    space and the bracketed count 2.  In general a message that arrives
    at a node with a stored text leaves the longest common prefix of the
    stored text and the stripped message, followed by a space, the
    ellipsis, a space and the bracketed number of messages so far. *)
Theorem C4_message_merge :
  forall (this : Task) (w : World),
    _message this = [] -> _msgCount this = 0 ->
    let first := addMessage stripAnsi (lit "file1.txt") this w in
    let second :=
      addMessage stripAnsi (lit "file2.txt") (fst first) (snd first) in
    _message (fst second)
      = lit "file" ++ [space; ellipsis; space] ++ lit "[2]"
    /\ _msgCount (fst second) = 2
    /\ (forall (node : Task) (msg : jsstring) (w' : World),
          _message node <> [] ->
          let merged := commonPrefix (_message node) (stripAnsi msg) in
          _message (fst (addMessage stripAnsi msg node w'))
            = merged ++ [space; ellipsis; space] ++ lit "["
                ++ ofNat (_msgCount node + 1) ++ lit "]"
          /\ prefixOf merged (_message node)
          /\ prefixOf merged (stripAnsi msg)
          /\ (forall p, prefixOf p (_message node) ->
                        prefixOf p (stripAnsi msg) -> prefixOf p merged)).
Proof.
  intros this w Hm Hc first second. subst first second.
  rewrite !addMessage_task.
  repeat split.
  - unfold mutated. rewrite !stripAnsi_plain by reflexivity.
    rewrite Hm, Hc. reflexivity.
  - unfold mutated. rewrite !stripAnsi_plain by reflexivity.
    rewrite Hm, Hc. reflexivity.
  - rewrite addMessage_task. unfold mutated.
    destruct (_message node) as [|c rest] eqn:E; [congruence|].
    simpl length. simpl Nat.eqb. cbv iota. simpl _message.
    unfold combineStrings. rewrite slice_commonLen. reflexivity.
  - apply commonPrefix_prefix_l.
  - apply commonPrefix_prefix_r.
  - intros p. apply commonPrefix_longest.
Qed.

(** C10.  A call of [addMessage] on a node whose stored text is empty
    stores the stripped text, counts the message and leaves the process
    as it is: it does not reach [requestRerender], and a turn of the loop
    that had nothing to run paints nothing after it.  A call on a node
    with a stored text does request a redraw.  So of the calls on a new
    node the first one requests none. *)
Theorem C10_first_message_no_redraw :
  forall (this : Task) (msg : jsstring) (w : World),
    (_message this = [] ->
     addMessage stripAnsi msg this w =
     (with_message (stripAnsi msg)
                   (with_msgCount (_msgCount this + 1) this), w))
    /\ (_message this = [] -> immediates (loop w) = [] ->
        paints (snd (tick stripAnsi statusText
                          (snd (addMessage stripAnsi msg this w))))
        = paints w)
    /\ (_message this <> [] ->
        snd (addMessage stripAnsi msg this w) = snd (requestRerender w))
    /\ (forall description,
          addMessage stripAnsi msg (freshTask description) w =
          (mkTask description Pending [] [] (stripAnsi msg) 1 Unsettled, w)).
Proof.
  intros this msg w.
  assert (H1 : _message this = [] ->
               addMessage stripAnsi msg this w =
               (with_message (stripAnsi msg)
                             (with_msgCount (_msgCount this + 1) this), w)).
  { intro Hm. unfold addMessage. simpl. rewrite Hm. reflexivity. }
  repeat split.
  - exact H1.
  - intros Hm Hq. rewrite (H1 Hm). simpl.
    rewrite tick_idle by exact Hq. reflexivity.
  - intro Hm. unfold addMessage. simpl.
    destruct (_message this); [congruence|]. simpl.
    unfold bind. destruct (requestRerender w). reflexivity.
Qed.

End Messages.

(** On a new node, with the concrete [strip]. *)
Lemma C4_message_merge_witness :
  (forall s, Ansi.plain s = true -> Ansi.strip s = s)
  /\ _message (freshTask []) = [] /\ _msgCount (freshTask []) = 0
  /\ _message
       (fst (addMessage Ansi.strip (lit "file2.txt")
               (fst (addMessage Ansi.strip (lit "file1.txt") (freshTask [])
                                (initialWorld None)))
               (snd (addMessage Ansi.strip (lit "file1.txt") (freshTask [])
                                (initialWorld None)))))
     = lit "file" ++ [space; ellipsis; space] ++ lit "[2]".
Proof.
  split; [exact strip_plain|]. split; [reflexivity|]. split; [reflexivity|].
  exact (proj1 (C4_message_merge Ansi.strip strip_plain (freshTask [])
                                 (initialWorld None) eq_refl eq_refl)).
Defined.

(** ** Optional tasks *)

Section Optional.

Variable stripAnsi : jsstring -> jsstring.
Variable statusText : Status -> jsstring.
Variable cyan : jsstring -> jsstring.

Hypothesis stripAnsi_plain :
  forall s, Ansi.plain s = true -> stripAnsi s = s.

Lemma boom_plain : stripAnsi (lit "boom") = lit "boom".
Proof. apply stripAnsi_plain. reflexivity. Qed.


End Optional.

(** ** The life of the runner *)

Lemma Task_induction (P : Task -> Prop) :
  (forall d s l lg m n c, (forall t, In t l -> P t) ->
                          P (mkTask d s l lg m n c)) ->
  forall t, P t.
Proof.
  intro H. fix IH 1. intros [d s l lg m n c]. apply H.
  induction l as [|t0 l IHl]; intros t Hin.
  - destruct Hin.
  - destruct Hin as [<-|Hin].
    + apply IH.
    + exact (IHl t Hin).
Qed.

Lemma keeps_ret {A} (a : A) : keepsRunner (ret a).
Proof. intro w. simpl. auto. Qed.

Lemma keeps_bind {A B} (m : M A) (k : A -> M B) :
  keepsRunner m -> (forall a, keepsRunner (k a)) -> keepsRunner (bind m k).
Proof.
  intros Hm Hk w. unfold bind.
  destruct (Hm w) as (C1 & R1). destruct (m w) as [a w1]. simpl in *.
  destruct (Hk a w1) as (C2 & R2). split; [congruence|auto].
Qed.

Lemma keeps_gets {A} (f : World -> A) : keepsRunner (gets f).
Proof. intro w. simpl. auto. Qed.

Lemma keeps_modify (f : World -> World) :
  (forall w, created (f w) = created w) ->
  (forall w, currentRunner (f w) = currentRunner w) ->
  keepsRunner (modify f).
Proof. intros Hc Hr w. simpl. rewrite Hc, Hr. auto. Qed.

Lemma keeps_onRunner (f : Runner -> M Runner) :
  (forall r, keepsRunner (f r)) -> keepsRunner (onRunner f).
Proof.
  intros Hf w. unfold onRunner.
  destruct (currentRunner w) as [r|] eqn:E; simpl; [|auto].
  destruct (Hf r w) as (C & _). destruct (f r w) as [r' w']. simpl in *.
  split; [exact C|discriminate].
Qed.

Lemma keeps_onCurrent (f : Task -> M Task) :
  (forall t, keepsRunner (f t)) -> keepsRunner (onCurrent f).
Proof.
  intros Hf w. unfold onCurrent.
  destruct (currentTask w) as [|t outer]; simpl; [auto|].
  destruct (Hf t w) as (C & R). destruct (f t w) as [t' w']. simpl in *.
  auto.
Qed.

Lemma keeps_setImmediate : keepsRunner setImmediate.
Proof. intro w. simpl. auto. Qed.

Lemma keeps_clearImmediate (h : Immediate) : keepsRunner (clearImmediate h).
Proof. apply keeps_modify; reflexivity. Qed.

Lemma keeps_requestRerender : keepsRunner requestRerender.
Proof.
  apply keeps_onRunner. intro r.
  destruct (_rerender r); [apply keeps_ret|].
  apply keeps_bind; [apply keeps_setImmediate|intro; apply keeps_ret].
Qed.

Lemma keeps_set_status (s : Status) (t : Task) : keepsRunner (set_status s t).
Proof.
  unfold set_status.
  destruct (statusStrength (_status t) <? statusStrength s);
    [|apply keeps_ret].
  apply keeps_bind; [apply keeps_requestRerender|intro; apply keeps_ret].
Qed.

Lemma keeps_update (t : Task) : keepsRunner (update t).
Proof.
  unfold update.
  repeat match goal with
         | |- context [if ?b then _ else _] => destruct b
         end; first [apply keeps_set_status | apply keeps_ret].
Qed.

Lemma keeps_mapM {A B} (f : A -> M B) (l : list A) :
  (forall a, keepsRunner (f a)) -> keepsRunner (mapM f l).
Proof.
  intro Hf. induction l as [|a l IH]; simpl; [apply keeps_ret|].
  apply keeps_bind; [apply Hf|intro].
  apply keeps_bind; [apply IH|intro; apply keeps_ret].
Qed.

Lemma keeps_callHandler (h : Handler) (message : option jsstring) :
  keepsRunner (callHandler h message).
Proof.
  destruct h; simpl.
  - apply keeps_modify; reflexivity.
  - apply keeps_onCurrent. intro. apply keeps_ret.
  - apply keeps_onCurrent. intro.
    apply keeps_bind; [apply keeps_ret|intro; apply keeps_set_status].
  - apply keeps_onCurrent. intro.
    apply keeps_bind; [apply keeps_ret|intro; apply keeps_set_status].
Qed.

Lemma keeps_console_call (which : Entry) (message : option jsstring) :
  keepsRunner (console_call which message).
Proof.
  apply keeps_bind; [apply keeps_gets|intro; apply keeps_callHandler].
Qed.

Section RunnerKept.

Variable stripAnsi : jsstring -> jsstring.
Variable statusText : Status -> jsstring.
Variable cyan : jsstring -> jsstring.

Lemma keeps_addMessage (msg : jsstring) (t : Task) :
  keepsRunner (addMessage stripAnsi msg t).
Proof.
  unfold addMessage.
  match goal with |- context [if ?b then _ else _] => destruct b end;
    [apply keeps_ret|].
  apply keeps_bind; [apply keeps_requestRerender|intro; apply keeps_ret].
Qed.

Lemma keeps_forEachThrow {A} (f : A -> M Thrown) (l : list A) :
  (forall a, In a l -> keepsRunner (f a)) -> keepsRunner (forEachThrow f l).
Proof.
  induction l as [|a l IH]; intro Hf; simpl; [apply keeps_ret|].
  apply keeps_bind; [apply Hf; left; reflexivity|].
  intros [e|]; [apply keeps_ret|].
  apply IH. intros b Hb. apply Hf. right. exact Hb.
Qed.

Lemma keeps_printOwnLogs (t : Task) :
  keepsRunner (printOwnLogs stripAnsi cyan t).
Proof.
  unfold printOwnLogs.
  destruct (0 <? length (_logs t)); [|apply keeps_ret].
  apply keeps_bind; [apply keeps_gets|intro avail].
  destruct (headerPadding stripAnsi cyan avail t <? 0)%Z; [apply keeps_ret|].
  apply keeps_bind; [apply keeps_console_call|intro].
  apply keeps_bind; [apply keeps_console_call|intro].
  apply keeps_bind; [|intro; apply keeps_ret].
  apply keeps_mapM. intro. apply keeps_console_call.
Qed.

Lemma keeps_printLogs (t : Task) : keepsRunner (printLogs stripAnsi cyan t).
Proof.
  induction t as [d s l lg m n c IH] using Task_induction.
  simpl. apply keeps_bind; [apply keeps_printOwnLogs|].
  intros [e|]; [apply keeps_ret|].
  induction l as [|t l IHl]; [apply keeps_ret|].
  apply keeps_bind; [apply IH; left; reflexivity|].
  intros [e|]; [apply keeps_ret|].
  apply IHl. intros u Hu. apply IH. right. exact Hu.
Qed.

Lemma keeps_updateRoots : keepsRunner updateRoots.
Proof.
  unfold updateRoots.
  apply keeps_bind; [apply keeps_gets|intros [this|]]; [|apply keeps_ret].
  apply keeps_bind; [apply keeps_mapM; intro; apply keeps_update|intro].
  apply keeps_onRunner. intro. apply keeps_ret.
Qed.

Lemma keeps__render : keepsRunner (_render stripAnsi statusText).
Proof.
  unfold _render.
  apply keeps_bind; [apply keeps_gets|intro].
  apply keeps_onRunner. intro. apply keeps_ret.
Qed.

(** [allDone] ends the session and leaves the runner where it is. *)
Lemma keeps_allDone : keepsRunner (allDone stripAnsi statusText cyan).
Proof.
  unfold allDone.
  apply keeps_bind; [apply keeps_gets|intros [this|]]; [|apply keeps_ret].
  apply keeps_bind.
  { destruct (_rerender this); [apply keeps_clearImmediate|apply keeps_ret]. }
  intro. apply keeps_bind; [apply keeps_updateRoots|intro].
  apply keeps_bind; [apply keeps__render|intro].
  apply keeps_bind; [apply keeps_onRunner; intro; apply keeps_ret|intro].
  apply keeps_bind; [apply keeps_modify; reflexivity|intro].
  apply keeps_bind; [apply keeps_gets|intro roots].
  apply keeps_bind.
  { apply keeps_forEachThrow. intros. apply keeps_printLogs. }
  intros [e|]; [apply keeps_ret|].
  apply keeps_bind; [apply keeps_console_call|intro; apply keeps_ret].
Qed.

Lemma keeps_rootDone : keepsRunner (rootDone stripAnsi statusText cyan).
Proof.
  unfold rootDone.
  apply keeps_bind; [apply keeps_onRunner; intro; apply keeps_ret|intro].
  apply keeps_bind; [apply keeps_gets|intros [this|]]; [|apply keeps_ret].
  destruct (_terminatedRoots this =? length (_roots this));
    [apply keeps_allDone|apply keeps_ret].
Qed.

Lemma keeps_currentTask_run {A} (owner : Task) (task : M A) :
  keepsRunner task -> keepsRunner (currentTask_run owner task).
Proof.
  intros Ht w. unfold currentTask_run.
  destruct (Ht (with_currentTask (owner :: currentTask w) w)) as (C & R).
  destruct (task _) as [a w']. simpl in *.
  destruct (currentTask w'); simpl; auto.
Qed.

Lemma keeps_performTask {T} (task : Operation T) (owner : Task) :
  keepsRunner task -> keepsRunner (performTask stripAnsi task owner).
Proof.
  intro Ht.
  assert (Hc : forall e o, keepsRunner (@performTask_catch stripAnsi T e o)).
  { intros e o. unfold performTask_catch.
    apply keeps_bind; [apply keeps_set_status|intro].
    apply keeps_bind; [apply keeps_addMessage|intro].
    apply keeps_bind; [apply keeps_requestRerender|intro; apply keeps_ret]. }
  unfold performTask.
  apply keeps_bind; [apply keeps_currentTask_run, Ht|].
  intros [[|result|e] o]; [apply keeps_ret| |apply Hc].
  destruct (Promise_all _) as [| |e]; [apply keeps_ret| |apply Hc].
  apply keeps_bind; [apply keeps_set_status|intro].
  apply keeps_bind; [apply keeps_requestRerender|intro; apply keeps_ret].
Qed.

Lemma keeps_newTask {T} (description : jsstring) (task : Operation T) :
  keepsRunner task -> keepsRunner (newTask stripAnsi description task).
Proof.
  intro Ht. unfold newTask.
  apply keeps_bind; [apply keeps_performTask, Ht|].
  intros [p this]. apply keeps_ret.
Qed.

(** With a runner in [currentRunner], [run] makes none. *)
Lemma run_keeps_runner {T} (description : jsstring) (inTask : Operation T)
      (w : World) :
  keepsRunner inTask ->
  currentRunner w <> None ->
  created (snd (run stripAnsi statusText cyan description inTask w))
    = created w
  /\ currentRunner (snd (run stripAnsi statusText cyan description inTask w))
     <> None.
Proof.
  intros Ht Hr.
  assert (Htop : keepsRunner
            (pt <- newTask stripAnsi description inTask ;;
             let (result, taskObj) := pt : Promise T * Task in
             onRunner (fun this =>
               ret (with_roots (_roots this ++ [taskObj]) this)) ;;
             match result with
             | Unsettled => ret Unsettled
             | _ =>
                 thrown <- rootDone stripAnsi statusText cyan ;;
                 match thrown with
                 | Some e => ret (Rejected e)
                 | None => ret result
                 end
             end)).
  { apply keeps_bind; [apply keeps_newTask, Ht|intros [result taskObj]].
    apply keeps_bind; [apply keeps_onRunner; intro; apply keeps_ret|intro].
    destruct result as [|v|e]; [apply keeps_ret| |];
      (apply keeps_bind; [apply keeps_rootDone|intros [e'|]; apply keeps_ret]). }
  assert (Hsub : keepsRunner
            (pt <- newTask stripAnsi description inTask ;;
             let (completion, entry) := pt : Promise T * Task in
             onCurrent (fun current =>
               ret (with_subTasks (_subTasks current ++ [entry]) current)) ;;
             requestRerender ;;
             ret completion)).
  { apply keeps_bind; [apply keeps_newTask, Ht|intros [completion entry]].
    apply keeps_bind; [apply keeps_onCurrent; intro; apply keeps_ret|intro].
    apply keeps_bind; [apply keeps_requestRerender|intro; apply keeps_ret]. }
  match type of Htop with keepsRunner ?m => set (top := m) in * end.
  match type of Hsub with keepsRunner ?m => set (sub := m) in * end.
  assert (E : run stripAnsi statusText cyan description inTask w =
              match hd_error (currentTask w) with
              | Some _ => sub w
              | None => top w
              end).
  { unfold run. unfold bind at 1. unfold gets at 1.
    destruct (hd_error (currentTask w)) as [current|]; [reflexivity|].
    unfold bind at 1. unfold bind at 1. unfold gets at 1.
    destruct (currentRunner w) as [this|]; [reflexivity|congruence]. }
  rewrite E.
  destruct (hd_error (currentTask w));
    [destruct (Hsub w) as (C & R)|destruct (Htop w) as (C & R)];
    split; auto.
Qed.

End RunnerKept.

(** C6.  In any process state, [allDone] leaves the runner it has drained
    in [currentRunner], and a [run] that finds a runner there, whatever its
    operation does short of replacing the runner itself, calls
    [logUpdate.create] no more.  So when a first top-level [run] is
    awaited, its root settles and the drain runs to its end ([done()] on
    the backend, the entry points of [console] back to the host's, the
    trailing line printed), the runner is still the value of
    [currentRunner] afterwards, with the handle of the redraw it cancelled
    still in [_rerender].  A second top-level [run] then makes no runner:
    [logUpdate.create] has still been called once, the root of the first
    session is still registered before the new one, and what the second
    operation gives to [console.log] goes to the host's function, not to
    the log of its node. *)
Theorem C6_runner_outlives_drain :
  forall (stripAnsi : jsstring -> jsstring) (statusText : Status -> jsstring)
         (cyan : jsstring -> jsstring)
         (first second said : jsstring) (cols : option nat),
    let s1 := firstSession stripAnsi statusText cyan first cols in
    let s2 := secondSession stripAnsi statusText cyan first second said cols in
    (forall w, currentRunner w <> None ->
               currentRunner (snd (allDone stripAnsi statusText cyan w))
               <> None)
    /\ (forall (T : Type) (description : jsstring) (inTask : Operation T) w,
          keepsRunner inTask -> currentRunner w <> None ->
          created (snd (run stripAnsi statusText cyan description inTask w))
          = created w)
    /\ fst s1 = Fulfilled tt
    /\ console (snd s1) = hostConsole
    /\ stdout (snd s1) = [(Log, [newline])]
    /\ created (snd s1) = 1
    /\ (exists this root1,
         currentRunner (snd s1) = Some this
         /\ _roots this = [root1]
         /\ _terminatedRoots this = 1
         /\ doneCalls (_backend this) = 1
         /\ length (frames (_backend this)) = 1
         /\ _rerender this = Some 0)
    /\ immediates (loop (snd s1)) = []
    /\ fst s2 = Fulfilled tt
    /\ created (snd s2) = 1
    /\ stdout (snd s2) = [(Log, [newline]); (Log, said); (Log, [newline])]
    /\ (exists this root1 root2,
         currentRunner (snd s2) = Some this
         /\ _roots this = [root1; root2]
         /\ _description root1 = first
         /\ _description root2 = second
         /\ _logs root2 = []
         /\ doneCalls (_backend this) = 2).
Proof.
  intros stripAnsi statusText cyan first second said cols.
  split; [|split].
  - intros w Hr. apply (keeps_allDone stripAnsi statusText cyan w), Hr.
  - intros T description inTask w Ht Hr.
    apply (run_keeps_runner stripAnsi statusText cyan description w Ht Hr).
  - vm_compute.
    repeat split; try (do 2 eexists; repeat split);
      try (do 3 eexists; repeat split).
Qed.

(** ** Truncation *)

(** C8.  The line [render] makes for a node that is [done], has a label of
    78 letters and no message, in a terminal of 80 columns with colours on:
    the line is cut inside the status marker.  What is left shows 85
    columns, and it holds the code that opens the green but not the code
    that resets it. *)
Theorem C8_truncation_cuts_the_reset :
  let line := render Ansi.strip Chalk.statusText 80 wideTask 0
                     (lineLength Ansi.strip wideTask 0) in
  available (initialWorld (Some 80)) = 80
  /\ lineLength Ansi.strip wideTask 0 = 78
  /\ line = List.repeat 120%N 78 ++ lit "  [" ++ Ansi.sgr 32 ++ lit "Do"
              ++ [space; ellipsis]
  /\ length (Ansi.strip line) = 85
  /\ 80 < length (Ansi.strip line)
  /\ ~ In Ansi.ESC (skipn 82 line).
Proof.
  vm_compute. repeat split; lia.
Qed.

(** ** Coalesced redraws *)

Lemma requestRerender_set (w : World) (this : Runner) (h : Immediate) :
  currentRunner w = Some this -> _rerender this = Some h ->
  requestRerender w = (tt, w).
Proof.
  destruct w as [ct cr co lo cols out cre]. simpl. intros -> E.
  unfold requestRerender, onRunner. simpl. rewrite E. reflexivity.
Qed.


Section Coalescing.

Variable stripAnsi : jsstring -> jsstring.
Variable statusText : Status -> jsstring.

Lemma mutate_task (m : Mutation) (this : Task) (w : World) :
  fst (mutate stripAnsi m this w) = mutated stripAnsi m this.
Proof.
  destruct m as [s|msg].
  - apply set_status_task.
  - unfold mutate, addMessage, mutated. simpl.
    destruct (length (_message this) =? 0); [reflexivity|].
    unfold bind. destruct (requestRerender w). reflexivity.
Qed.

(** The owner after a mutation: [requestRerender] has run or has not. *)
Lemma mutate_world (m : Mutation) (this : Task) (w : World) :
  snd (mutate stripAnsi m this w) =
  if requests m this then snd (requestRerender w) else w.
Proof.
  destruct m as [s|msg]; simpl.
  - unfold set_status.
    destruct (statusStrength (_status this) <? statusStrength s);
      [|reflexivity].
    unfold bind. destruct (requestRerender w). reflexivity.
  - unfold addMessage. simpl.
    destruct (length (_message this) =? 0); [reflexivity|]. simpl.
    unfold bind. destruct (requestRerender w). reflexivity.
Qed.

Lemma mutations_step (m : Mutation) (rest : list Mutation) (this : Task)
      (w : World) :
  mutations stripAnsi (m :: rest) this w =
  mutations stripAnsi rest (mutated stripAnsi m this)
            (if requests m this then snd (requestRerender w) else w).
Proof.
  simpl. unfold bind.
  rewrite <- mutate_task with (w := w), <- mutate_world.
  destruct (mutate stripAnsi m this w). reflexivity.
Qed.







End Coalescing.


(** ** Waiting for a subtree *)

Module TimingFacts.
Import Timing.

Lemma Node_induction (P : Node -> Prop) :
  (forall s l, (forall p n, In (p, n) l -> P n) -> P (mkNode s l)) ->
  forall n, P n.
Proof.
  intro H. fix IH 1. intros [s l]. apply H.
  induction l as [|[p0 n0] l IHl]; intros p n Hin.
  - destruct Hin.
  - destruct Hin as [E|Hin].
    + injection E as _ <-. apply IH.
    + exact (IHl p n Hin).
Qed.

Lemma subTasksAt_waits (t : nat) (l : list (nat * Node)) :
  map (fun w => w t)
      (subTasksAt t (map (fun c => (fst c, wait (snd c))) l))
  = map (fun c => wait c t) (subTasksAt t l).
Proof.
  unfold subTasksAt.
  induction l as [|[p n] l IH]; simpl; [reflexivity|].
  destruct (p <=? t); simpl; [f_equal|]; exact IH.
Qed.

Lemma completion_unfold (this : Node) :
  completion this =
  allAt (settlesAt this)
        (map (fun c => wait c (settlesAt this))
             (subTasksAt (settlesAt this) (children this))).
Proof. reflexivity. Qed.

(** [wait] in terms of [completion]: the two [await]s of the source. *)
Lemma wait_unfold (this : Node) (called : nat) :
  wait this called =
  let resumed := Nat.max called (completion this) in
  allAt resumed
        (map (fun c => wait c resumed) (subTasksAt resumed (children this))).
Proof.
  destruct this as [s l]. unfold completion. simpl.
  rewrite !subTasksAt_waits. reflexivity.
Qed.

Lemma subTasksAt_In (t p : nat) (n : Node) (l : list (nat * Node)) :
  In (p, n) l -> p <= t -> In n (subTasksAt t l).
Proof.
  intros Hin Hp. unfold subTasksAt.
  apply (in_map snd _ (p, n)), filter_In. split; [exact Hin|].
  apply Nat.leb_le. exact Hp.
Qed.

Lemma wait_ge_settlesAt (this : Node) (called : nat) :
  settlesAt this <= wait this called.
Proof.
  rewrite wait_unfold. cbv zeta.
  etransitivity; [|apply fold_max_ge].
  etransitivity; [|apply Nat.le_max_r].
  rewrite completion_unfold. apply fold_max_ge.
Qed.

End TimingFacts.

(** C7, as the specification states it, fails.  The wait of [lateParent],
    called at 0, resumes at 5, when its completion has settled, and reads the
    children then: [childA] and [childB].  It resolves at 8.  [childC] was
    appended at 6, while the wait was pending, and settles at 20 only. *)
Lemma C7_counterexample :
  In (6, Timing.childC) (Timing.children Timing.lateParent)
  /\ Timing.completion Timing.lateParent = 5
  /\ Timing.wait Timing.lateParent 0 = 8
  /\ 0 <= 6 < Timing.wait Timing.lateParent 0
  /\ Timing.wait Timing.lateParent 0 < Timing.settlesAt Timing.childC
  /\ Timing.wait Timing.lateParent 0 < Timing.wait Timing.childC 6.
Proof. vm_compute. repeat split; try lia. right; right; left; reflexivity. Qed.

(** C7, amended.  [wait()] goes on when the completion of the node has
    settled, reads the children once at that instant, and resolves with the
    last of their waits.  So it resolves no earlier than the call, than the
    node's own operation and than its completion, and no earlier than the
    wait of any child that had been appended when it went on; the
    completion itself covers the children appended when the operation
    settled.  When every child of the subtree is appended while the
    operation of its parent runs, [wait()] resolves only once every
    operation of the subtree has settled. *)
Theorem C7_wait_reads_children_once :
  forall (this : Timing.Node) (called : nat),
    let resumed := Nat.max called (Timing.completion this) in
    Timing.wait this called =
      Timing.allAt resumed
        (map (fun c => Timing.wait c resumed)
             (Timing.subTasksAt resumed (Timing.children this)))
    /\ called <= Timing.wait this called
    /\ Timing.settlesAt this <= Timing.completion this
    /\ Timing.completion this <= Timing.wait this called
    /\ (forall pushed child,
          In (pushed, child) (Timing.children this) ->
          pushed <= Timing.settlesAt this ->
          Timing.wait child (Timing.settlesAt this)
            <= Timing.completion this)
    /\ (forall pushed child,
          In (pushed, child) (Timing.children this) ->
          pushed <= resumed ->
          Timing.wait child resumed <= Timing.wait this called
          /\ Timing.settlesAt child <= Timing.wait this called)
    /\ (Timing.pushedInTime this = true ->
        Timing.allSettled this <= Timing.wait this called).
Proof.
  intros this called resumed.
  pose proof (TimingFacts.wait_unfold this called) as U. cbv zeta in U.
  fold resumed in U.
  assert (Hres : resumed <= Timing.wait this called).
  { rewrite U. apply fold_max_ge. }
  assert (Hcompl : Timing.settlesAt this <= Timing.completion this).
  { rewrite TimingFacts.completion_unfold. apply fold_max_ge. }
  assert (Hchild : forall pushed child,
             In (pushed, child) (Timing.children this) ->
             pushed <= resumed ->
             Timing.wait child resumed <= Timing.wait this called).
  { intros pushed child Hin Hp. rewrite U.
    apply fold_max_In.
    apply (in_map (fun c => Timing.wait c resumed)).
    eapply TimingFacts.subTasksAt_In; eauto. }
  repeat split.
  - exact U.
  - subst resumed. lia.
  - exact Hcompl.
  - subst resumed. lia.
  - intros pushed child Hin Hp.
    rewrite (TimingFacts.completion_unfold this).
    apply fold_max_In.
    apply (in_map (fun c => Timing.wait c (Timing.settlesAt this))).
    eapply TimingFacts.subTasksAt_In; eauto.
  - eapply Hchild; eauto.
  - intros. etransitivity; [apply TimingFacts.wait_ge_settlesAt|].
    eapply Hchild; eauto.
  - clear U Hres Hcompl Hchild. subst resumed. revert called.
    induction this as [s l IH] using TimingFacts.Node_induction.
    intros called Hq. simpl in Hq.
    rewrite forallb_forall in Hq.
    pose proof (TimingFacts.wait_unfold (Timing.mkNode s l) called) as U.
    cbv zeta in U.
    set (resumed := Nat.max called (Timing.completion (Timing.mkNode s l)))
      in *.
    assert (Hs : s <= resumed).
    { subst resumed. rewrite TimingFacts.completion_unfold.
      etransitivity; [|apply Nat.le_max_r]. apply fold_max_ge. }
    assert (Hres : resumed <= Timing.wait (Timing.mkNode s l) called).
    { rewrite U. apply fold_max_ge. }
    simpl Timing.allSettled.
    etransitivity.
    { apply fold_max_bounded
        with (m := Timing.wait (Timing.mkNode s l) called).
      intros x Hx. apply in_map_iff in Hx.
      destruct Hx as ([p n] & <- & Hin). cbn [snd].
      specialize (Hq _ Hin). simpl in Hq.
      apply andb_prop in Hq. destruct Hq as (Hp & Hn).
      apply Nat.leb_le in Hp.
      etransitivity; [apply (IH p n Hin resumed Hn)|].
      rewrite U. apply fold_max_In.
      apply (in_map (fun c => Timing.wait c resumed)).
      eapply TimingFacts.subTasksAt_In; eauto. simpl in *. lia. }
    simpl in *. lia.
Qed.


(** * Further properties of the code *)

(** ** [commonLen] *)

Lemma commonPrefix_sym (a : jsstring) :
  forall b, commonPrefix a b = commonPrefix b a.
Proof.
  induction a as [|x a IH]; intros [|y b]; simpl; try reflexivity.
  destruct (N.eqb_spec x y) as [->|Hn].
  - rewrite N.eqb_refl, IH. reflexivity.
  - destruct (N.eqb_spec y x) as [E|_]; [congruence|reflexivity].
Qed.

Lemma commonPrefix_refl (a : jsstring) : commonPrefix a a = a.
Proof.
  induction a as [|x a IH]; simpl; [reflexivity|].
  rewrite N.eqb_refl, IH. reflexivity.
Qed.

Lemma commonPrefix_differ (a : jsstring) :
  forall b x y,
    nth_error a (length (commonPrefix a b)) = Some x ->
    nth_error b (length (commonPrefix a b)) = Some y ->
    x <> y.
Proof.
  induction a as [|u a IH]; intros [|v b] x y; simpl; try discriminate.
  destruct (N.eqb_spec u v) as [->|Hn]; simpl.
  - apply IH.
  - congruence.
Qed.

(** X1.  [commonLen a b] is the length of the longest common prefix: it
    exceeds neither length, the two strings agree on that many units and,
    where both go on, differ at the next one.  It does not depend on the
    order of its arguments, and for a string and itself it is the
    length. *)
Theorem X1_commonLen_longest_prefix :
  forall (a b : jsstring),
    let n := commonLen a b in
    n <= length a /\ n <= length b
    /\ firstn n a = firstn n b
    /\ (forall x y, nth_error a n = Some x -> nth_error b n = Some y ->
                    x <> y)
    /\ commonLen b a = n
    /\ commonLen a a = length a.
Proof.
  intros a b n. subst n. rewrite !commonLen_length.
  repeat split.
  - apply commonPrefix_length_le.
  - rewrite commonPrefix_sym. apply commonPrefix_length_le.
  - transitivity (commonPrefix a b); [apply commonPrefix_firstn|].
    rewrite (commonPrefix_sym a b). symmetry. apply commonPrefix_firstn.
  - apply commonPrefix_differ.
  - rewrite commonPrefix_sym. reflexivity.
  - rewrite commonPrefix_refl. reflexivity.
Qed.

(** ** The same message again and again *)

Lemma commonPrefix_app_self (t : jsstring) :
  forall r, commonPrefix (t ++ r) t = t.
Proof.
  induction t as [|x t IH]; intro r; simpl.
  - destruct r; reflexivity.
  - rewrite N.eqb_refl, IH. reflexivity.
Qed.

Section SameMessage.

Variable stripAnsi : jsstring -> jsstring.

Lemma mutations_task (ms : list Mutation) :
  forall (this : Task) (w : World),
    fst (mutations stripAnsi ms this w) =
    fold_left (fun t m => mutated stripAnsi m t) ms this.
Proof.
  induction ms as [|m rest IH]; intros this w; [reflexivity|].
  rewrite mutations_step. simpl. apply IH.
Qed.

(** One more message with the text [t] on a node whose stored text starts
    with [t]. *)
Lemma mutated_same (msg : jsstring) (this : Task) (r : jsstring) :
  stripAnsi msg <> [] ->
  _message this = stripAnsi msg ++ r ->
  let next := mutated stripAnsi (SetMessage msg) this in
  _message next
    = stripAnsi msg ++ [space; ellipsis; space] ++ lit "["
        ++ ofNat (_msgCount this + 1) ++ lit "]"
  /\ _msgCount next = _msgCount this + 1.
Proof.
  intros Hne Hm. simpl. rewrite Hm.
  destruct (stripAnsi msg) as [|c t] eqn:E; [congruence|].
  simpl length. simpl Nat.eqb. cbv iota. simpl _message. simpl _msgCount.
  split; [|reflexivity].
  unfold combineStrings. rewrite slice_commonLen.
  change (c :: t ++ r) with ((c :: t) ++ r).
  rewrite commonPrefix_app_self. reflexivity.
Qed.

(** X2.  The same message given two times or more to a node that had none:
    the stored text is the stripped message itself, followed by a space,
    the ellipsis, a space and the bracketed number of messages; the count
    is the number of calls. *)
Theorem X2_same_message_repeated :
  forall (msg : jsstring) (this : Task) (w : World) (k : nat),
    _message this = [] ->
    stripAnsi msg <> [] ->
    let after :=
      fst (mutations stripAnsi (List.repeat (SetMessage msg) (S (S k)))
                     this w) in
    _message after
      = stripAnsi msg ++ [space; ellipsis; space] ++ lit "["
          ++ ofNat (_msgCount this + S (S k)) ++ lit "]"
    /\ _msgCount after = _msgCount this + S (S k).
Proof.
  intros msg this w k Hm Hne after. subst after.
  rewrite mutations_task.
  assert (Hinv : forall j,
             let t := fold_left (fun t m => mutated stripAnsi m t)
                                (List.repeat (SetMessage msg) (S j)) this in
             _msgCount t = _msgCount this + S j
             /\ exists r, _message t = stripAnsi msg ++ r).
  { induction j as [|j IH].
    - simpl. rewrite Hm. simpl. split; [lia|].
      exists []. rewrite app_nil_r. reflexivity.
    - cbv zeta in *.
      replace (List.repeat (SetMessage msg) (S (S j)))
        with (List.repeat (SetMessage msg) (S j) ++ [SetMessage msg])
        by (symmetry; apply repeat_cons).
      rewrite fold_left_app.
      destruct IH as (Hc & r & Hr). cbn [fold_left].
      destruct (@mutated_same msg _ _ Hne Hr) as (Hm' & Hc').
      split; [lia|]. eexists. exact Hm'. }
  replace (List.repeat (SetMessage msg) (S (S k)))
    with (List.repeat (SetMessage msg) (S k) ++ [SetMessage msg])
    by (symmetry; apply repeat_cons).
  rewrite fold_left_app. cbn [fold_left].
  destruct (Hinv k) as (Hc & r & Hr).
  destruct (@mutated_same msg _ _ Hne Hr) as (Hm' & Hc').
  rewrite Hm', Hc', Hc.
  replace (_msgCount this + S k + 1) with (_msgCount this + S (S k)) by lia.
  split; reflexivity.
Qed.

End SameMessage.

(** Three times [Copying a] on a new node, with the concrete [strip]. *)
Lemma X2_same_message_repeated_witness :
  _message (freshTask []) = []
  /\ Ansi.strip (lit "Copying a") <> []
  /\ _message
       (fst (mutations Ansi.strip
               (List.repeat (SetMessage (lit "Copying a")) 3)
               (freshTask []) (initialWorld None)))
     = lit "Copying a" ++ [space; ellipsis; space] ++ lit "[3]".
Proof.
  assert (H : Ansi.strip (lit "Copying a") <> []) by (vm_compute; discriminate).
  split; [reflexivity|]. split; [exact H|].
  exact (proj1 (X2_same_message_repeated Ansi.strip (lit "Copying a")
                  (freshTask []) (initialWorld None) 1 eq_refl H)).
Defined.

(** ** The column width and the lines of a frame *)

Lemma fold_max_map {A} (f : A -> nat) (l : list A) :
  forall a,
    fold_left (fun previous x => Nat.max previous (f x)) l a =
    fold_left Nat.max (map f l) a.
Proof. induction l as [|x l IH]; intro a; simpl; [reflexivity|apply IH]. Qed.

Lemma fold_max_attained (l : list nat) :
  forall a, fold_left Nat.max l a = a \/ In (fold_left Nat.max l a) l.
Proof.
  induction l as [|x l IH]; intro a; simpl; [left; reflexivity|].
  destruct (IH (Nat.max a x)) as [E|Hin]; [|right; right; exact Hin].
  rewrite E. destruct (Nat.max_dec a x) as [-> | ->]; [left|right; left];
    reflexivity.
Qed.

Lemma lineLength_unfold stripAnsi (this : Task) (depth : nat) :
  lineLength stripAnsi this depth =
  fold_left Nat.max
    (map (fun t => lineLength stripAnsi t (depth + 1)) (_subTasks this))
    (length (stripAnsi (_description this)) + 2 * depth).
Proof. destruct this. simpl. apply fold_max_map. Qed.

Lemma nodesAt_unfold (this : Task) (depth : nat) :
  nodesAt this depth =
  (this, depth) :: flat_map (fun t => nodesAt t (depth + 1)) (_subTasks this).
Proof. destruct this. reflexivity. Qed.

(** X3.  [lineLength] is the greatest, over the node and all the nodes
    below it, of the visual length of the label plus two columns per level
    of depth: no node of the subtree needs more, and one needs exactly
    that. *)
Theorem X3_lineLength_is_widest :
  forall (stripAnsi : jsstring -> jsstring) (this : Task) (depth : nat),
    (forall n d, In (n, d) (nodesAt this depth) ->
                 length (stripAnsi (_description n)) + 2 * d
                 <= lineLength stripAnsi this depth)
    /\ (exists n d,
          In (n, d) (nodesAt this depth)
          /\ lineLength stripAnsi this depth
             = length (stripAnsi (_description n)) + 2 * d).
Proof.
  intros stripAnsi this.
  induction this as [ds s l lg m c cp IH] using Task_induction.
  intro depth.
  set (this := mkTask ds s l lg m c cp).
  rewrite (lineLength_unfold stripAnsi this depth), (nodesAt_unfold this depth).
  change (_subTasks this) with l. split.
  - intros n d [E|Hin].
    + injection E as <- <-. apply fold_max_ge.
    + apply in_flat_map in Hin. destruct Hin as (t & Ht & Hn).
      etransitivity; [apply (proj1 (IH t Ht (depth + 1)) n d Hn)|].
      apply fold_max_In.
      apply (in_map (fun t => lineLength stripAnsi t (depth + 1))), Ht.
  - match goal with
    | |- context [fold_left Nat.max ?xs ?a] =>
        destruct (fold_max_attained xs a) as [E|Hin]
    end.
    + exists this, depth. split; [left; reflexivity|exact E].
    + apply in_map_iff in Hin. destruct Hin as (t & Et & Ht).
      destruct (proj2 (IH t Ht (depth + 1))) as (n & d & Hn & En).
      exists n, d. split.
      * right. apply in_flat_map. exists t. split; assumption.
      * rewrite <- Et. exact En.
Qed.

Lemma join_cons (sep x : jsstring) (l : list jsstring) :
  l <> [] -> join sep (x :: l) = x ++ sep ++ join sep l.
Proof. destruct l; [congruence|reflexivity]. Qed.

Lemma join_app (sep : jsstring) (l1 : list jsstring) :
  forall l2, l1 <> [] -> l2 <> [] ->
             join sep (l1 ++ l2) = join sep l1 ++ sep ++ join sep l2.
Proof.
  induction l1 as [|x l1 IH]; intros l2 H1 H2; [congruence|].
  destruct l1 as [|y l1].
  - simpl app. apply join_cons, H2.
  - change ((x :: y :: l1) ++ l2) with (x :: ((y :: l1) ++ l2)).
    rewrite join_cons by discriminate.
    rewrite IH by (discriminate || assumption).
    rewrite (join_cons sep x (l := y :: l1)) by discriminate.
    rewrite <- !app_assoc. reflexivity.
Qed.

(** Joining joined groups is joining all their elements. *)
Lemma join_flat_map {A} (sep : jsstring) (f : A -> list jsstring)
      (l : list A) :
  (forall a, f a <> []) ->
  join sep (map (fun a => join sep (f a)) l) = join sep (flat_map f l).
Proof.
  intro Hf. induction l as [|a l IH]; [reflexivity|].
  destruct l as [|b l].
  - simpl. rewrite app_nil_r. reflexivity.
  - change (map (fun a => join sep (f a)) (a :: b :: l))
      with (join sep (f a) :: map (fun a => join sep (f a)) (b :: l)).
    rewrite join_cons by discriminate. rewrite IH.
    change (flat_map f (a :: b :: l)) with (f a ++ flat_map f (b :: l)).
    rewrite join_app; [reflexivity|apply Hf|].
    simpl. pose proof (Hf b). destruct (f b); [congruence|discriminate].
Qed.

Lemma map_flat_map' {A B C} (g : B -> C) (f : A -> list B) (l : list A) :
  map g (flat_map f l) = flat_map (fun a => map g (f a)) l.
Proof.
  induction l as [|a l IH]; simpl; [reflexivity|].
  rewrite map_app, IH. reflexivity.
Qed.

Lemma flat_map_flat_map' {A B C} (g : B -> list C) (f : A -> list B)
      (l : list A) :
  flat_map g (flat_map f l) = flat_map (fun a => flat_map g (f a)) l.
Proof.
  induction l as [|a l IH]; simpl; [reflexivity|].
  rewrite flat_map_app, IH. reflexivity.
Qed.

Lemma flat_map_ext_in {A B} (f g : A -> list B) (l : list A) :
  (forall a, In a l -> f a = g a) -> flat_map f l = flat_map g l.
Proof.
  induction l as [|a l IH]; intro H; simpl; [reflexivity|].
  rewrite (H a (or_introl eq_refl)), IH; [reflexivity|].
  intros b Hb. apply H. right. exact Hb.
Qed.

Section Frames.

Variable stripAnsi : jsstring -> jsstring.
Variable statusText : Status -> jsstring.

Lemma render_lines (avail lineLen : nat) (this : Task) :
  forall depth,
    render stripAnsi statusText avail this depth lineLen =
    join [newline]
         (map (linesOf stripAnsi statusText avail lineLen)
              (nodesAt this depth)).
Proof.
  induction this as [ds s l lg m c cp IH] using Task_induction.
  intro depth.
  set (this := mkTask ds s l lg m c cp).
  rewrite (nodesAt_unfold this depth).
  change (render stripAnsi statusText avail this depth lineLen)
    with (join [newline]
            (renderLine stripAnsi statusText avail this depth lineLen
               :: map (fun t => render stripAnsi statusText avail t
                                       (depth + 1) lineLen) l)).
  change (_subTasks this) with l.
  cbn [map]. rewrite map_flat_map'.
  rewrite (map_ext_in _ (fun t => join [newline]
                           (map (linesOf stripAnsi statusText avail lineLen)
                                (nodesAt t (depth + 1)))))
    by (intros t Ht; apply IH, Ht).
  change (linesOf stripAnsi statusText avail lineLen (this, depth))
    with (renderLine stripAnsi statusText avail this depth lineLen).
  destruct l as [|t l]; [reflexivity|].
  rewrite join_cons by discriminate.
  rewrite (join_flat_map [newline]
             (fun t => map (linesOf stripAnsi statusText avail lineLen)
                           (nodesAt t (depth + 1)))).
  - rewrite join_cons; [reflexivity|].
    simpl. rewrite (nodesAt_unfold t (depth + 1)). discriminate.
  - intro a. rewrite (nodesAt_unfold a (depth + 1)). discriminate.
Qed.

(** X4.  [render] yields one line per node of the subtree, in the order
    of [nodesAt] (a node, then its sub-tasks in the order of their
    creation, each followed by its own subtree), each node at its depth and
    all with the same column width.  The frame [_render] gives to the
    backend is made this way of all the nodes of all the roots, with the
    width of the widest. *)
Theorem X4_render_one_line_per_node :
  forall (avail lineLen : nat) (this : Task) (depth : nat)
         (w : World) (runner : Runner),
    render stripAnsi statusText avail this depth lineLen =
      join [newline]
        (map (fun nd => renderLine stripAnsi statusText avail
                                   (fst nd) (snd nd) lineLen)
             (nodesAt this depth))
    /\ (currentRunner w = Some runner ->
        exists runner',
          currentRunner (snd (_render stripAnsi statusText w)) = Some runner'
          /\ _roots runner' = _roots runner
          /\ frames (_backend runner') =
             frames (_backend runner)
               ++ [join [newline]
                     (map (fun nd =>
                             renderLine stripAnsi statusText (available w)
                               (fst nd) (snd nd)
                               (fold_left
                                  (fun previous root =>
                                     Nat.max previous
                                       (lineLength stripAnsi root 0))
                                  (_roots runner) 0))
                          (flat_map (fun root => nodesAt root 0)
                                    (_roots runner)))]).
Proof.
  intros avail lineLen this depth w runner. split.
  - apply render_lines.
  - intro Hr. destruct w as [ct cr co lo cols out cre]. simpl in Hr. subst cr.
    unfold _render, bind, gets, onRunner. simpl.
    eexists. split; [reflexivity|]. split; [reflexivity|]. simpl.
    f_equal. f_equal.
    rewrite (map_ext _ _ (fun r => render_lines _ _ r 0)).
    rewrite map_flat_map'.
    apply (join_flat_map [newline]
             (fun r => map (linesOf stripAnsi statusText _ _) (nodesAt r 0))).
    intro a. rewrite (nodesAt_unfold a 0). discriminate.
Qed.

End Frames.

(** ** Lines without styling codes *)

Lemma renderLine_raw stripAnsi statusText (avail : nat) (this : Task)
      (depth lineLen : nat) :
  renderLine stripAnsi statusText avail this depth lineLen =
  let raw := rawLine statusText this depth lineLen in
  if avail <? length (stripAnsi raw) then
    slice0 raw (Z.of_nat avail
                + (Z.of_nat (length raw) - Z.of_nat (length (stripAnsi raw)))
                - 2)
      ++ [space; ellipsis]
  else raw.
Proof. reflexivity. Qed.

(** X5.  A line in which [stripAnsi] finds nothing to remove (colours off,
    a plain label): when it is wider than the terminal it is cut to the
    width less two and ends with a space and the ellipsis, so it fills the
    terminal exactly, provided the terminal has two columns at least; in a
    terminal of one column the cut takes the last unit only and the line
    gets longer by one.  A line that fits is left as it is. *)
Theorem X5_plain_line_is_cut_to_fit :
  forall (stripAnsi : jsstring -> jsstring) (statusText : Status -> jsstring)
         (avail : nat) (this : Task) (depth lineLen : nat),
    let raw := rawLine statusText this depth lineLen in
    let line := renderLine stripAnsi statusText avail this depth lineLen in
    stripAnsi raw = raw ->
    (length raw <= avail -> line = raw)
    /\ (avail < length raw -> 2 <= avail ->
        line = firstn (avail - 2) raw ++ [space; ellipsis]
        /\ length line = avail)
    /\ (avail < length raw -> avail = 1 ->
        line = firstn (length raw - 1) raw ++ [space; ellipsis]
        /\ length line = length raw + 1).
Proof.
  intros stripAnsi statusText avail this depth lineLen raw line H.
  subst line. rewrite renderLine_raw. fold raw. cbv zeta. rewrite H.
  replace (Z.of_nat avail + (Z.of_nat (length raw) - Z.of_nat (length raw)) - 2)%Z
    with (Z.of_nat avail - 2)%Z by lia.
  repeat split.
  - intro Hle.
    destruct (Nat.ltb_spec avail (length raw)); [lia|reflexivity].
  - destruct (Nat.ltb_spec avail (length raw)); [|lia].
    unfold slice0.
    destruct (Z.ltb_spec (Z.of_nat avail - 2) 0); [lia|].
    rewrite Z.min_l by lia. do 2 f_equal. lia.
  - destruct (Nat.ltb_spec avail (length raw)); [|lia].
    unfold slice0.
    destruct (Z.ltb_spec (Z.of_nat avail - 2) 0); [lia|].
    rewrite Z.min_l by lia. rewrite length_app, firstn_length_le by lia.
    simpl. lia.
  - subst avail. destruct (Nat.ltb_spec 1 (length raw)); [|lia].
    unfold slice0.
    destruct (Z.ltb_spec (Z.of_nat 1 - 2) 0); [|lia].
    do 2 f_equal. lia.
  - subst avail. destruct (Nat.ltb_spec 1 (length raw)); [|lia].
    unfold slice0.
    destruct (Z.ltb_spec (Z.of_nat 1 - 2) 0); [|lia].
    rewrite length_app, firstn_length_le by lia.
    simpl length. lia.
Qed.

(** A pending node with a message, colours off, in 20 columns. *)
Lemma X5_plain_line_is_cut_to_fit_witness :
  let this := mkTask (lit "build") Pending [] [] (lit "compiling sources") 1
                     Unsettled in
  Ansi.strip (rawLine plainStatusText this 0 5)
    = rawLine plainStatusText this 0 5
  /\ length (renderLine Ansi.strip plainStatusText 20 this 0 5) = 20.
Proof.
  intro this.
  assert (H : Ansi.strip (rawLine plainStatusText this 0 5)
              = rawLine plainStatusText this 0 5) by reflexivity.
  split; [exact H|].
  apply (proj1 (proj2 (X5_plain_line_is_cut_to_fit
                         Ansi.strip plainStatusText 20 this 0 5 H))).
  - vm_compute. lia.
  - lia.
Defined.

(** ** The log transcript *)

Lemma with_stdout_nil (w : World) : with_stdout (stdout w ++ []) w = w.
Proof. destruct w. unfold with_stdout. simpl. rewrite app_nil_r. reflexivity. Qed.

Lemma with_stdout_app (w : World) (o1 o2 : list (Entry * jsstring)) :
  with_stdout (stdout (with_stdout (stdout w ++ o1) w) ++ o2)
              (with_stdout (stdout w ++ o1) w)
  = with_stdout (stdout w ++ o1 ++ o2) w.
Proof. unfold with_stdout. simpl. rewrite app_assoc. reflexivity. Qed.

Lemma console_call_native (message : option jsstring) (w : World) :
  console_log (console w) = Native Log ->
  console_call Log message w =
  (tt, with_stdout
         (stdout w ++ [(Log, match message with Some m => m | None => [] end)])
         w).
Proof.
  intro H. unfold console_call, bind, gets. rewrite H. reflexivity.
Qed.

Lemma print_lines_native (ls : list jsstring) :
  forall w,
    console_log (console w) = Native Log ->
    snd (mapM (fun l => console_call Log (Some l)) ls w) =
    with_stdout (stdout w ++ map (fun l => (Log, l)) ls) w.
Proof.
  induction ls as [|l ls IH]; intros w H; simpl.
  - symmetry. apply with_stdout_nil.
  - unfold bind. rewrite console_call_native by exact H.
    match goal with
    | |- context [mapM ?f ls ?w1] =>
        pose proof (IH w1 H) as E; destruct (mapM f ls w1) as [ys w2]
    end.
    simpl in *. subst w2. apply with_stdout_app.
Qed.

Section Transcript.

Variable stripAnsi : jsstring -> jsstring.
Variable cyan : jsstring -> jsstring.

Lemma printOwnLogs_native (this : Task) (w : World) :
  console_log (console w) = Native Log ->
  ((length (_logs this) =? 0)
   || (0 <=? headerPadding stripAnsi cyan (available w) this)%Z) = true ->
  printOwnLogs stripAnsi cyan this w =
  (None, with_stdout
           (stdout w ++ ownTranscript stripAnsi cyan (available w) this) w).
Proof.
  intros H Hfit. unfold printOwnLogs, ownTranscript.
  destruct (length (_logs this)) as [|n] eqn:El.
  - change (0 <? 0) with false. cbv iota.
    unfold ret. rewrite with_stdout_nil. reflexivity.
  - change (0 <? S n) with true. cbv iota.
    simpl in Hfit. unfold bind, gets. cbv beta.
    destruct (Z.ltb_spec (headerPadding stripAnsi cyan (available w) this) 0)
      as [Hlt|_].
    { apply Z.leb_le in Hfit. lia. }
    rewrite console_call_native by exact H.
    rewrite console_call_native by exact H.
    match goal with
    | |- context [mapM ?f ?ls ?w1] =>
        pose proof (print_lines_native ls w1 H) as E;
        destruct (mapM f ls w1) as [ys w2]
    end.
    simpl in E. subst w2. unfold ret. f_equal.
    unfold with_stdout. simpl. rewrite <- !app_assoc. reflexivity.
Qed.

(** The loop over the sub-tasks in [printLogs] is [forEachThrow]. *)
Lemma printLogs_each (l : list Task) :
  (fix each (ts : list Task) : M Thrown :=
     match ts with
     | [] => ret None
     | t :: rest =>
         r <- printLogs stripAnsi cyan t ;;
         match r with
         | Some e => ret (Some e)
         | None => each rest
         end
     end) l
  = forEachThrow (printLogs stripAnsi cyan) l.
Proof.
  induction l as [|t l IH]; [reflexivity|].
  cbn [forEachThrow]. rewrite <- IH. reflexivity.
Qed.

Lemma printLogs_unfold (this : Task) :
  printLogs stripAnsi cyan this =
  (r <- printOwnLogs stripAnsi cyan this ;;
   match r with
   | Some e => ret (Some e)
   | None => forEachThrow (printLogs stripAnsi cyan) (_subTasks this)
   end).
Proof.
  destruct this as [d s l lg m n c]. cbn [_subTasks].
  rewrite <- printLogs_each. reflexivity.
Qed.

Lemma headersFit_unfold (avail : nat) (this : Task) :
  headersFit stripAnsi cyan avail this =
  ((length (_logs this) =? 0)
   || (0 <=? headerPadding stripAnsi cyan avail this)%Z)
  && forallb (fun t => headersFit stripAnsi cyan avail t) (_subTasks this).
Proof. destruct this. reflexivity. Qed.

Lemma transcript_unfold (avail : nat) (this : Task) :
  transcript stripAnsi cyan avail this =
  ownTranscript stripAnsi cyan avail this
    ++ flat_map (fun t => transcript stripAnsi cyan avail t) (_subTasks this).
Proof. destruct this. reflexivity. Qed.

(** The transcript of a list of subtrees, given that of each. *)
Lemma forEach_printLogs_native (l : list Task) :
  (forall t, In t l ->
     forall w, console_log (console w) = Native Log ->
               headersFit stripAnsi cyan (available w) t = true ->
               printLogs stripAnsi cyan t w =
               (None, with_stdout
                        (stdout w ++ transcript stripAnsi cyan (available w) t)
                        w)) ->
  forall w,
    console_log (console w) = Native Log ->
    forallb (fun t => headersFit stripAnsi cyan (available w) t) l = true ->
    forEachThrow (printLogs stripAnsi cyan) l w =
    (None, with_stdout
             (stdout w
                ++ flat_map
                     (fun t => transcript stripAnsi cyan (available w) t) l)
             w).
Proof.
  induction l as [|t l IHl]; intros IH w H Hfit.
  - simpl. unfold ret. rewrite with_stdout_nil. reflexivity.
  - simpl in Hfit. apply andb_prop in Hfit. destruct Hfit as (Ht & Hl).
    simpl. unfold bind.
    rewrite (IH t (or_introl eq_refl) w H Ht).
    rewrite IHl.
    + f_equal. apply with_stdout_app.
    + intros u Hu. apply IH. right. exact Hu.
    + exact H.
    + exact Hl.
Qed.

Lemma printLogs_native (this : Task) :
  forall w,
    console_log (console w) = Native Log ->
    headersFit stripAnsi cyan (available w) this = true ->
    printLogs stripAnsi cyan this w =
    (None, with_stdout
             (stdout w ++ transcript stripAnsi cyan (available w) this) w).
Proof.
  induction this as [d s l lg m n c IH] using Task_induction.
  intros w H Hfit.
  set (this := mkTask d s l lg m n c) in *.
  rewrite headersFit_unfold in Hfit.
  apply andb_prop in Hfit. destruct Hfit as (Hown & Hsub).
  rewrite printLogs_unfold, transcript_unfold. unfold bind.
  rewrite (printOwnLogs_native this w H Hown).
  change (_subTasks this) with l in *.
  rewrite (forEach_printLogs_native l IH); [|exact H|exact Hsub].
  f_equal. apply with_stdout_app.
Qed.

(** X6.  With [console.log] bound to the host's function and no header
    too wide for the terminal, [printLogs] does not throw and prints, after
    what was printed before, the transcript of the subtree: for each node
    that has logs, in the order of [nodesAt], the header, an empty line and
    the logs in the order they were captured; a node without logs prints
    nothing.  The roots are flushed one after the other in the order of
    their registration. *)
Theorem X6_printLogs_prints_depth_first :
  forall (this : Task) (roots : list Task) (w : World),
    console_log (console w) = Native Log ->
    (headersFit stripAnsi cyan (available w) this = true ->
     printLogs stripAnsi cyan this w =
     (None,
      with_stdout
        (stdout w
           ++ flat_map (fun nd => ownTranscript stripAnsi cyan (available w)
                                                (fst nd))
                       (nodesAt this 0))
        w))
    /\ (forallb (fun t => headersFit stripAnsi cyan (available w) t) roots
        = true ->
        forEachThrow (printLogs stripAnsi cyan) roots w =
        (None,
         with_stdout
           (stdout w
              ++ flat_map
                   (fun nd => ownTranscript stripAnsi cyan (available w)
                                            (fst nd))
                   (flat_map (fun t => nodesAt t 0) roots))
           w)).
Proof.
  intros this roots w H.
  assert (T : forall avail t depth,
             transcript stripAnsi cyan avail t =
             flat_map (fun nd => ownTranscript stripAnsi cyan avail (fst nd))
                      (nodesAt t depth)).
  { intros avail t. induction t as [d s l lg m n c IH] using Task_induction.
    intro depth. set (t := mkTask d s l lg m n c).
    rewrite transcript_unfold, (nodesAt_unfold t depth).
    change (_subTasks t) with l. cbn [flat_map fst]. f_equal.
    rewrite flat_map_flat_map'.
    apply flat_map_ext_in. intros u Hu. apply (IH u Hu (depth + 1)). }
  split.
  - intro Hfit. rewrite (printLogs_native this w H Hfit), (T _ this 0).
    reflexivity.
  - intro Hfit.
    rewrite (forEach_printLogs_native roots
               (fun t _ => printLogs_native t) w H Hfit).
    rewrite flat_map_flat_map'. do 3 f_equal.
    apply flat_map_ext_in. intros t _. apply (T _ t 0).
Qed.

End Transcript.

(** A task above two children that each captured a line, in 80 columns. *)
Lemma X6_printLogs_prints_depth_first_witness :
  let child (l : jsstring) :=
    mkTask (lit "step") Done [] [l] [] 0 (Fulfilled tt) in
  let this :=
    mkTask (lit "build") Done [child (lit "one"); child (lit "two")]
           [] [] 0 (Fulfilled tt) in
  console_log (console (initialWorld None)) = Native Log
  /\ headersFit Ansi.strip Chalk.cyan (available (initialWorld None)) this
     = true
  /\ map snd (stdout (snd (printLogs Ansi.strip Chalk.cyan this
                                      (initialWorld None))))
     = map snd
         (ownTranscript Ansi.strip Chalk.cyan 80 (child (lit "one"))
            ++ ownTranscript Ansi.strip Chalk.cyan 80 (child (lit "two"))).
Proof.
  intros child this.
  assert (H : console_log (console (initialWorld None)) = Native Log)
    by reflexivity.
  assert (F : headersFit Ansi.strip Chalk.cyan
                         (available (initialWorld None)) this = true)
    by reflexivity.
  split; [exact H|]. split; [exact F|].
  rewrite (proj1 (X6_printLogs_prints_depth_first
                    Ansi.strip Chalk.cyan this [] (initialWorld None) H) F).
  reflexivity.
Defined.

(** ** A header wider than the terminal *)

(** X7.  A top-level [run] in a process that has not run anything, of an
    operation that gives one line to [console.log] and fulfils: when the
    header of the log transcript of its node is two columns or more wider
    than the terminal, the count [repeat] makes of [padding / 2] is
    negative, [printLogs] throws a [RangeError] from the [finally] block,
    and the promise of [run] is rejected with it although the operation
    fulfilled.  The message of the error quotes [padding / 2] as it was
    given: [-4] for a padding of -8, [-3.5] for a padding of -7.  The
    drain has by then painted the last frame, finalised the backend and
    restored [console]; nothing of the captured log is printed. *)
Theorem X7_wide_header_rejects_run :
  forall (stripAnsi : jsstring -> jsstring) (statusText : Status -> jsstring)
         (cyan : jsstring -> jsstring)
         (description said : jsstring) (cols : option nat),
    let root :=
      mkTask description Done [] [said] [] 0 (Fulfilled tt) in
    let count :=
      headerPadding stripAnsi cyan (available (initialWorld cols)) root in
    (count < 0)%Z ->
    let result :=
      run stripAnsi statusText cyan description
          (console_call Log (Some said) ;; ret (Fulfilled tt))
          (initialWorld cols) in
    fst result
    = Rejected
        (rangeError
           (padding stripAnsi cyan (available (initialWorld cols)) root))
    /\ stdout (snd result) = []
    /\ console (snd result) = hostConsole
    /\ exists runner,
        currentRunner (snd result) = Some runner
        /\ _roots runner = [root]
        /\ doneCalls (_backend runner) = 1
        /\ length (frames (_backend runner)) = 1.
Proof.
  intros stripAnsi statusText cyan description said cols root count Hneg result.
  subst result.
  cbv -[headerPadding padding rangeError available Z.ltb lineLength render].
  match goal with
  | |- context [Z.ltb ?c 0] =>
      replace (Z.ltb c 0) with true by (symmetry; apply Z.ltb_lt; exact Hneg)
  end.
  cbv -[headerPadding padding rangeError available lineLength render].
  repeat split. eexists. repeat split.
Qed.

(** One captured line in 80 columns under a label of 69 letters, whose
    header leaves a padding of -7, and under one of 70 letters, whose
    header leaves -8. *)
Lemma X7_wide_header_rejects_run_witness :
  let root (n : nat) :=
    mkTask (List.repeat 120%N n) Done [] [lit "hello"] [] 0 (Fulfilled tt) in
  let result (n : nat) :=
    run Ansi.strip Chalk.statusText Chalk.cyan (List.repeat 120%N n)
        (console_call Log (Some (lit "hello")) ;; ret (Fulfilled tt))
        (initialWorld None) in
  (headerPadding Ansi.strip Chalk.cyan (available (initialWorld None))
     (root 69%nat) < 0)%Z
  /\ fst (result 69) = Rejected (lit "Invalid count value: -3.5")
  /\ fst (result 70) = Rejected (lit "Invalid count value: -4").
Proof.
  intros root result.
  assert (H69 : (headerPadding Ansi.strip Chalk.cyan
                   (available (initialWorld None)) (root 69%nat) < 0)%Z)
    by (vm_compute; reflexivity).
  assert (H70 : (headerPadding Ansi.strip Chalk.cyan
                   (available (initialWorld None)) (root 70%nat) < 0)%Z)
    by (vm_compute; reflexivity).
  split; [exact H69|]. split.
  - exact (proj1 (X7_wide_header_rejects_run Ansi.strip Chalk.statusText
                    Chalk.cyan (List.repeat 120%N 69) (lit "hello") None
                    H69)).
  - exact (proj1 (X7_wide_header_rejects_run Ansi.strip Chalk.statusText
                    Chalk.cyan (List.repeat 120%N 70) (lit "hello") None
                    H70)).
Defined.

(** ** The redirected [console] *)

Lemma requestRerender_frame (w : World) :
  stdout (snd (requestRerender w)) = stdout w
  /\ currentTask (snd (requestRerender w)) = currentTask w
  /\ console (snd (requestRerender w)) = console w.
Proof.
  destruct w as [ct [[tr be ro [h|] cl ce cw ci]|] co lo cols out cre];
    repeat split.
Qed.

Lemma set_status_frame (s : Status) (this : Task) (w : World) :
  stdout (snd (set_status s this w)) = stdout w
  /\ currentTask (snd (set_status s this w)) = currentTask w
  /\ console (snd (set_status s this w)) = console w.
Proof.
  unfold set_status.
  destruct (statusStrength (_status this) <? statusStrength s);
    [|repeat split].
  unfold bind. pose proof (requestRerender_frame w) as H.
  destruct (requestRerender w). exact H.
Qed.

(** X8.  Once [new Runner()] has run, the four entry points of [console]
    are the closures of the runner.  A call of one of them outside any task
    changes nothing: the message is neither printed nor kept.  Inside a
    task the message is appended to the log of the current task, nothing is
    printed, and the status of the task becomes the higher-ranked of its
    own and [warn] for [console.warn], [fail] for [console.error]; [log]
    and [info] leave the status alone. *)
Theorem X8_redirected_console :
  forall (w0 : World) (entry : Entry) (message : jsstring),
    let w := snd (newRunner w0) in
    console w =
      mkConsole consoleHandler warningHandler errorHandler consoleHandler
    /\ (currentTask w0 = [] ->
        console_call entry (Some message) w = (tt, w))
    /\ (forall current outer,
          currentTask w0 = current :: outer ->
          let w' := snd (console_call entry (Some message) w) in
          stdout w' = stdout w0
          /\ exists current',
              currentTask w' = current' :: outer
              /\ _logs current' = _logs current ++ [message]
              /\ statusStrength (_status current') =
                 Nat.max (statusStrength (_status current))
                         (entryStrength entry)
              /\ with_status (_status current)
                   (with_logs (_logs current) current') = current).
Proof.
  intros w0 entry message w. subst w.
  destruct w0 as [ct cr co lo cols out cre]. simpl.
  split; [reflexivity|]. split.
  - intros ->. destruct entry; reflexivity.
  - intros current outer ->.
    assert (S : forall s,
               let w1 := mkWorld (current :: outer) cr
                           (mkConsole consoleHandler warningHandler
                                      errorHandler consoleHandler)
                           lo cols out (S cre) in
               let r := set_status s
                          (with_logs (_logs current ++ [message]) current)
                          w1 in
               stdout (snd r) = out
               /\ _logs (fst r) = _logs current ++ [message]
               /\ statusStrength (_status (fst r)) =
                  Nat.max (statusStrength (_status current)) (statusStrength s)
               /\ with_status (_status current)
                    (with_logs (_logs current) (fst r)) = current).
    { intros s w1 r. subst r. repeat split.
      - apply (set_status_frame s _ w1).
      - rewrite set_status_task. destruct (_ <? _); reflexivity.
      - rewrite set_status_strength. reflexivity.
      - rewrite set_status_task.
        destruct (_ <? _); destruct current; reflexivity. }
    destruct entry; unfold console_call, bind, gets; simpl;
      unfold onCurrent; simpl.
    + split; [reflexivity|]. eexists. split; [reflexivity|].
      destruct current; simpl. repeat split. f_equal. lia.
    + unfold bind, addLog, ret.
      destruct (S Warn) as (So & Sl & Ss & Sf).
      destruct (set_status Warn _ _) as [c' w']. simpl in *.
      split; [exact So|]. exists c'. repeat split; assumption.
    + unfold bind, addLog, ret.
      destruct (S Fail) as (So & Sl & Ss & Sf).
      destruct (set_status Fail _ _) as [c' w']. simpl in *.
      split; [exact So|]. exists c'. repeat split; assumption.
    + split; [reflexivity|]. eexists. split; [reflexivity|].
      destruct current; simpl. repeat split. f_equal. lia.
Qed.

(** ** A sub-task that rejects *)

(** X9.  A task whose operation starts a sub-task that rejects with [e],
    does not wait for it and fulfils: the completion of the task is
    rejected with [e] all the same, through the [Promise.all] of
    [performTask] over the waits of the sub-tasks.  The sub-task and the
    task both end with the status [fail] and the stripped message of [e].
    This holds for a task started inside another task, in any process
    state, and for a top-level task in a process without runner. *)
Theorem X9_rejected_subtask_rejects_parent :
  forall (stripAnsi : jsstring -> jsstring) (statusText : Status -> jsstring)
         (cyan : jsstring -> jsstring)
         (label sublabel : jsstring) (e : Error) (w : World),
    let rejects : Operation unit := ret (Rejected e) in
    let operation : Operation unit :=
      run stripAnsi statusText cyan sublabel rejects ;; ret (Fulfilled tt) in
    let result := run stripAnsi statusText cyan label operation w in
    let failed (node : Task) (l : jsstring) (subs : list Task) :=
      _description node = l /\ _status node = Fail
      /\ _message node = stripAnsi e /\ _completion node = Rejected e
      /\ _subTasks node = subs in
    (forall parent outer,
        currentTask w = parent :: outer ->
        fst result = Rejected e
        /\ exists node sub,
            currentTask (snd result)
              = with_subTasks (_subTasks parent ++ [node]) parent :: outer
            /\ failed node label [sub] /\ failed sub sublabel [])
    /\ (currentTask w = [] -> currentRunner w = None ->
        fst result = Rejected e
        /\ exists runner node sub,
            currentRunner (snd result) = Some runner
            /\ _roots runner = [node]
            /\ failed node label [sub] /\ failed sub sublabel []).
Proof.
  intros stripAnsi statusText cyan label sublabel e w
         rejects operation result failed.
  subst rejects operation result failed. split.
  - intros parent outer Hc.
    destruct w as [ct cr co lo cols out cre]. simpl in Hc. subst ct.
    destruct cr as [[tr be ro [h|] cl ce cw ci]|];
      cbn; (split; [reflexivity|]); do 2 eexists; (repeat split).
  - intros Hc Hr.
    destruct w as [ct cr co lo cols out cre]. simpl in Hc, Hr. subst ct cr.
    destruct co as [[which| | |] cw ce ci];
      vm_compute; (split; [reflexivity|]); do 3 eexists; (repeat split).
Qed.

(** ** Settled tasks *)



(** ** What [update] reads and what it leaves *)

Lemma some_status_map (s : Status) (l : list Task) :
  some (fun t => Status_eqb (_status t) s) l =
  existsb (fun x => Status_eqb x s) (map _status l).
Proof.
  unfold some. induction l as [|t l IH]; simpl; [reflexivity|].
  rewrite IH. reflexivity.
Qed.

(** The node [update] leaves, in terms of the statuses of the sub-tasks. *)
Lemma update_task (this : Task) (w : World) :
  fst (update this w) =
  match aggregate (map _status (_subTasks this)) with
  | Some s =>
      if statusStrength (_status this) <? statusStrength s
      then with_status s this else this
  | None => this
  end.
Proof.
  unfold update, aggregate.
  rewrite !some_status_map, length_map.
  destruct (0 <? length (_subTasks this)); [|reflexivity].
  repeat match goal with
         | |- context [existsb ?f ?l] => destruct (existsb f l)
         end; simpl; try apply set_status_task; reflexivity.
Qed.

(** X11.  [update] reads the node's own status and the statuses of its
    direct sub-tasks, nothing else: two nodes that agree on these end with
    the same status, whatever lies deeper.  It never lowers the status, it
    changes no other field, and a second [update] changes nothing more. *)
Theorem X11_update_reads_direct_children :
  forall (this other : Task) (w w' : World),
    let updated := fst (update this w) in
    (_status other = _status this ->
     map _status (_subTasks other) = map _status (_subTasks this) ->
     _status (fst (update other w')) = _status updated)
    /\ statusStrength (_status this) <= statusStrength (_status updated)
    /\ updated = with_status (_status updated) this
    /\ fst (update updated w') = updated.
Proof.
  intros this other w w' updated. subst updated.
  rewrite !update_task. repeat split.
  - intros Hs Hm. rewrite Hm, Hs.
    destruct (aggregate _) as [s|]; [|exact Hs].
    destruct (_ <? _); simpl; [reflexivity|exact Hs].
  - destruct (aggregate _) as [s|]; [|lia].
    destruct (Nat.ltb_spec (statusStrength (_status this)) (statusStrength s));
      simpl; lia.
  - destruct (aggregate _) as [s|]; [|destruct this; reflexivity].
    destruct (_ <? _); destruct this; reflexivity.
  - destruct (aggregate (map _status (_subTasks this))) as [s|] eqn:Ea.
    + destruct (Nat.ltb_spec (statusStrength (_status this))
                             (statusStrength s)) as [Hlt|Hge].
      * simpl _subTasks. rewrite Ea. simpl _status.
        rewrite Nat.ltb_irrefl. reflexivity.
      * rewrite Ea.
        destruct (Nat.ltb_spec (statusStrength (_status this))
                               (statusStrength s)); [lia|reflexivity].
    + rewrite Ea. reflexivity.
Qed.

Lemma mapM_update_tasks (l : list Task) :
  forall w, fst (mapM update l w) = map (fun r => fst (update r w)) l.
Proof.
  induction l as [|t l IH]; intro w; [reflexivity|].
  simpl. unfold bind.
  destruct (update t w) as [t' w1] eqn:Et.
  specialize (IH w1).
  destruct (mapM update l w1) as [l' w2]. simpl in *. subst l'.
  f_equal.
  apply map_ext. intro r. rewrite !update_task. reflexivity.
Qed.

Lemma sameSession_refl (w : World) : sameSession w w.
Proof. repeat split. Qed.

Lemma sameSession_trans (w1 w2 w3 : World) :
  sameSession w1 w2 -> sameSession w2 w3 -> sameSession w1 w3.
Proof.
  intros (A1 & B1 & C1) (A2 & B2 & C2). repeat split; congruence.
Qed.

Lemma requestRerender_sameSession (w : World) :
  sameSession w (snd (requestRerender w)).
Proof.
  destruct w as [ct [[tr be ro [h|] cl ce cw ci]|] co lo cols out cre];
    repeat split.
Qed.

Lemma set_status_sameSession (s : Status) (t : Task) (w : World) :
  sameSession w (snd (set_status s t w)).
Proof.
  unfold set_status.
  destruct (_ <? _); [|apply sameSession_refl].
  unfold bind. pose proof (requestRerender_sameSession w) as H.
  destruct (requestRerender w). exact H.
Qed.

Lemma update_sameSession (t : Task) (w : World) :
  sameSession w (snd (update t w)).
Proof.
  unfold update.
  repeat match goal with
         | |- context [if ?b then _ else _] => destruct b
         end;
    first [apply set_status_sameSession | apply sameSession_refl].
Qed.

Lemma mapM_update_sameSession (l : list Task) :
  forall w, sameSession w (snd (mapM update l w)).
Proof.
  induction l as [|t l IH]; intro w; [apply sameSession_refl|].
  simpl. unfold bind.
  pose proof (update_sameSession t w) as H1.
  destruct (update t w) as [t' w1]. simpl in H1.
  pose proof (IH w1) as H2.
  destruct (mapM update l w1) as [l' w2]. simpl in *.
  eapply sameSession_trans; eassumption.
Qed.

(** X12.  The pass of the runner before a paint applies [update] to each
    root and to the roots only: each root gets the status its own [update]
    gives it, every other field of a root, its sub-tasks with all their
    fields among them, stays as it was, and so do the counter of settled
    roots and the frames of the backend.  A status is therefore aggregated
    one level up, from the children of a root to the root, and no
    further. *)
Theorem X12_updateRoots_touches_root_statuses_only :
  forall (w : World) (runner : Runner),
    currentRunner w = Some runner ->
    exists runner',
      currentRunner (snd (updateRoots w)) = Some runner'
      /\ _roots runner' =
         map (fun r => with_status (_status (fst (update r w))) r)
             (_roots runner)
      /\ map _subTasks (_roots runner') = map _subTasks (_roots runner)
      /\ _terminatedRoots runner' = _terminatedRoots runner
      /\ _backend runner' = _backend runner
      /\ currentTask (snd (updateRoots w)) = currentTask w
      /\ stdout (snd (updateRoots w)) = stdout w.
Proof.
  intros w runner Hr.
  assert (Hroots : forall l,
             map (fun r => fst (update r w)) l =
             map (fun r => with_status (_status (fst (update r w))) r) l).
  { intro l. apply map_ext. intro r. rewrite update_task.
    destruct (aggregate _) as [s|]; [|destruct r; reflexivity].
    destruct (_ <? _); destruct r; reflexivity. }
  unfold updateRoots, bind, gets. rewrite Hr.
  pose proof (mapM_update_tasks (_roots runner) w) as Hm.
  pose proof (mapM_update_sameSession (_roots runner) w) as (Hc & Ho & Hk).
  destruct (mapM update (_roots runner) w) as [roots w1].
  simpl in Hm, Hc, Ho, Hk. subst roots. rewrite Hr in Hk.
  unfold onRunner.
  destruct (currentRunner w1) as [r1|] eqn:E1; [|discriminate].
  simpl in Hk. injection Hk as Ht Hb _.
  simpl. eexists. split; [reflexivity|]. simpl.
  rewrite Hroots. repeat split; try assumption.
  rewrite map_map. apply map_ext. intro r. destruct r. reflexivity.
Qed.

(** A pending root above a [done] task that has a [warn] sub-task: the
    pass makes the root [done]; the [warn] two levels down does not reach
    it. *)
Lemma X12_updateRoots_touches_root_statuses_only_witness :
  let middle := with_subTasks [leaf Warn] (leaf Done) in
  let root := with_subTasks [middle] (freshTask (lit "build")) in
  let runner :=
    mkRunner 0 (mkLogUpdate [] 0) [root] None
             (Native Log) (Native Error_) (Native Warn_) (Native Info) in
  let w := with_currentRunner (Some runner) (activeWorld None) in
  currentRunner w = Some runner
  /\ exists runner',
      currentRunner (snd (updateRoots w)) = Some runner'
      /\ _roots runner' = [with_status Done root].
Proof.
  intros middle root runner w.
  assert (H : currentRunner w = Some runner) by reflexivity.
  split; [exact H|].
  destruct (X12_updateRoots_touches_root_statuses_only w H)
    as (runner' & Hr & Hroots & _).
  exists runner'. split; [exact Hr|]. rewrite Hroots. reflexivity.
Defined.

(** ** When [wait()] resolves, exactly *)

Lemma wait_upper (this : Timing.Node) :
  forall called,
    Timing.wait this called <= Nat.max called (Timing.allSettled this).
Proof.
  induction this as [s l IH] using TimingFacts.Node_induction.
  intro called.
  set (this := Timing.mkNode s l).
  assert (Hchild : forall p n, In (p, n) l ->
                     Timing.allSettled n <= Timing.allSettled this).
  { intros p n Hin. simpl. apply fold_max_In.
    apply (in_map (fun c => Timing.allSettled (snd c)) l (p, n)), Hin. }
  assert (Hs : s <= Timing.allSettled this) by (simpl; apply fold_max_ge).
  assert (Hsnap : forall t n,
             In n (Timing.subTasksAt t l) -> exists p, In (p, n) l).
  { intros t n Hn. unfold Timing.subTasksAt in Hn.
    apply in_map_iff in Hn. destruct Hn as ([p n'] & <- & Hf).
    apply filter_In in Hf. exists p. apply Hf. }
  assert (Hc : Timing.completion this <= Timing.allSettled this).
  { rewrite TimingFacts.completion_unfold.
    etransitivity; [apply fold_max_bounded with (m := Timing.allSettled this)|].
    - intros x Hx. apply in_map_iff in Hx. destruct Hx as (n & <- & Hn).
      destruct (Hsnap _ _ Hn) as (p & Hin).
      pose proof (IH p n Hin (Timing.settlesAt this)).
      pose proof (Hchild p n Hin). simpl in *. lia.
    - simpl in *. lia. }
  rewrite TimingFacts.wait_unfold. cbv zeta.
  etransitivity;
    [apply fold_max_bounded
       with (m := Nat.max called (Timing.allSettled this))|].
  - intros x Hx. apply in_map_iff in Hx. destruct Hx as (n & <- & Hn).
    destruct (Hsnap _ _ Hn) as (p & Hin).
    pose proof (IH p n Hin
                   (Nat.max called (Timing.completion this))).
    pose proof (Hchild p n Hin). lia.
  - lia.
Qed.

Lemma wait_lower (this : Timing.Node) :
  forall called,
    Timing.pushedInTime this = true ->
    Nat.max called (Timing.allSettled this) <= Timing.wait this called.
Proof.
  induction this as [s l IH] using TimingFacts.Node_induction.
  intros called Hq. simpl in Hq. rewrite forallb_forall in Hq.
  pose proof (TimingFacts.wait_unfold (Timing.mkNode s l) called) as U.
  cbv zeta in U.
  set (resumed := Nat.max called (Timing.completion (Timing.mkNode s l))) in *.
  assert (Hs : s <= resumed).
  { subst resumed. rewrite TimingFacts.completion_unfold.
    etransitivity; [|apply Nat.le_max_r]. apply fold_max_ge. }
  assert (Hres : resumed <= Timing.wait (Timing.mkNode s l) called).
  { rewrite U. apply fold_max_ge. }
  assert (Hall : Timing.allSettled (Timing.mkNode s l)
                 <= Timing.wait (Timing.mkNode s l) called).
  { simpl Timing.allSettled.
    etransitivity.
    { apply fold_max_bounded
        with (m := Timing.wait (Timing.mkNode s l) called).
      intros x Hx. apply in_map_iff in Hx.
      destruct Hx as ([p n] & <- & Hin). cbn [snd].
      specialize (Hq _ Hin). simpl in Hq.
      apply andb_prop in Hq. destruct Hq as (Hp & Hn).
      apply Nat.leb_le in Hp.
      pose proof (IH p n Hin resumed Hn).
      etransitivity; [|rewrite U; apply fold_max_In;
                       apply (in_map (fun c => Timing.wait c resumed));
                       eapply TimingFacts.subTasksAt_In; eauto; lia].
      lia. }
    lia. }
  subst resumed. lia.
Qed.

Lemma wait_monotone (this : Timing.Node) :
  forall called later,
    called <= later -> Timing.wait this called <= Timing.wait this later.
Proof.
  induction this as [s l IH] using TimingFacts.Node_induction.
  intros called later Hle.
  set (this := Timing.mkNode s l).
  rewrite (TimingFacts.wait_unfold this called). cbv zeta.
  pose proof (TimingFacts.wait_unfold this later) as U. cbv zeta in U.
  set (r1 := Nat.max called (Timing.completion this)).
  set (r2 := Nat.max later (Timing.completion this)) in *.
  assert (Hr : r1 <= r2) by (subst r1 r2; lia).
  assert (Hres : r2 <= Timing.wait this later)
    by (rewrite U; apply fold_max_ge).
  etransitivity;
    [apply fold_max_bounded with (m := Timing.wait this later)|lia].
  intros x Hx. apply in_map_iff in Hx. destruct Hx as (n & <- & Hn).
  unfold Timing.subTasksAt in Hn. apply in_map_iff in Hn.
  destruct Hn as ([p n'] & En & Hf). simpl in En. subst n'.
  apply filter_In in Hf. destruct Hf as (Hin & Hp).
  apply Nat.leb_le in Hp. simpl in Hp.
  etransitivity; [apply (IH p n Hin r1 r2 Hr)|].
  rewrite U. apply fold_max_In.
  apply (in_map (fun c => Timing.wait c r2)).
  eapply TimingFacts.subTasksAt_In; [exact Hin|]. simpl. lia.
Qed.

(** X13.  In a run in which every operation fulfils, which is what the
    module [Timing] describes: [wait()] is fulfilled no later than the
    call or the last operation of the subtree to fulfil, and a later call
    is never fulfilled earlier.  When moreover every sub-task of the
    subtree is appended while the operation of its parent is still
    running, [wait()] is fulfilled exactly when the call has been made and
    every operation of the subtree has fulfilled, and the completion of
    the node is fulfilled exactly with the last operation of its
    subtree. *)
Theorem X13_wait_resolves_with_the_subtree :
  forall (this : Timing.Node) (called later : nat),
    Timing.wait this called <= Nat.max called (Timing.allSettled this)
    /\ (called <= later ->
        Timing.wait this called <= Timing.wait this later)
    /\ (Timing.pushedInTime this = true ->
        Timing.wait this called = Nat.max called (Timing.allSettled this)
        /\ Timing.completion this = Timing.allSettled this).
Proof.
  intros this called later.
  split; [apply wait_upper|]. split; [apply wait_monotone|].
  intro Hq.
  assert (Hw : forall c, Timing.wait this c
                         = Nat.max c (Timing.allSettled this)).
  { intro c. apply Nat.le_antisymm;
      [apply wait_upper|apply wait_lower, Hq]. }
  split; [apply Hw|].
  apply Nat.le_antisymm.
  - assert (Hc : Timing.completion this <= Timing.wait this 0).
    { rewrite TimingFacts.wait_unfold. cbv zeta.
      etransitivity; [|apply fold_max_ge]. lia. }
    pose proof (wait_upper this 0). lia.
  - destruct this as [s l]. simpl in Hq. rewrite forallb_forall in Hq.
    rewrite TimingFacts.completion_unfold. simpl Timing.allSettled.
    simpl Timing.settlesAt. simpl Timing.children.
    etransitivity.
    { apply fold_max_bounded
        with (m := Timing.allAt s
                     (map (fun c => Timing.wait c s)
                          (Timing.subTasksAt s l))).
      intros x Hx. apply in_map_iff in Hx.
      destruct Hx as ([p n] & <- & Hin). cbn [snd].
      specialize (Hq _ Hin). simpl in Hq.
      apply andb_prop in Hq. destruct Hq as (Hp & Hn).
      apply Nat.leb_le in Hp.
      pose proof (wait_lower n s Hn).
      etransitivity; [|apply fold_max_In;
                       apply (in_map (fun c => Timing.wait c s));
                       eapply TimingFacts.subTasksAt_In; eauto].
      lia. }
    pose proof (fold_max_ge
                  (map (fun c => Timing.wait c s) (Timing.subTasksAt s l)) s).
    unfold Timing.allAt. lia.
Qed.

(** Two sub-tasks started while the operation of their parent runs. *)
Lemma X13_wait_resolves_with_the_subtree_example :
  let this := Timing.mkNode 4 [(1, Timing.mkNode 9 []);
                               (2, Timing.mkNode 6 [(3, Timing.mkNode 7 [])])] in
  Timing.pushedInTime this = true
  /\ Timing.completion this = 9
  /\ Timing.wait this 2 = 9
  /\ Timing.wait this 12 = 12.
Proof. vm_compute. repeat split. Qed.


(** ** What an operation cannot change *)

Lemma calm_ret {A} (a : A) : calm (ret a).
Proof. intro w. split; reflexivity. Qed.

Lemma calm_bind {A B} (m : M A) (k : A -> M B) :
  calm m -> (forall a, calm (k a)) -> calm (bind m k).
Proof.
  intros Hm Hk w. unfold bind.
  destruct (Hm w) as (F1 & C1). destruct (m w) as [a w1]. simpl in *.
  destruct (Hk a w1) as (F2 & C2). split; congruence.
Qed.

Lemma calm_requestRerender : calm requestRerender.
Proof.
  intros [ct [[tr be ro [h|] cl ce cw ci]|] co lo cols out cre];
    split; reflexivity.
Qed.

Lemma calm_set_status (s : Status) (t : Task) : calm (set_status s t).
Proof.
  unfold set_status. destruct (_ <? _); [|apply calm_ret].
  apply calm_bind; [apply calm_requestRerender|intro; apply calm_ret].
Qed.

Lemma calm_addMessage stripAnsi (msg : jsstring) (t : Task) :
  calm (addMessage stripAnsi msg t).
Proof.
  unfold addMessage.
  match goal with |- context [if ?b then _ else _] => destruct b end;
    [apply calm_ret|].
  apply calm_bind; [apply calm_requestRerender|intro; apply calm_ret].
Qed.

Lemma calm_tame {A} (m : M A) : calm m -> tame m.
Proof.
  intros H w Hne. destruct (H w) as (F & C).
  rewrite C. repeat split; assumption.
Qed.

Lemma tame_bind {A B} (m : M A) (k : A -> M B) :
  tame m -> (forall a, tame (k a)) -> tame (bind m k).
Proof.
  intros Hm Hk w Hne. unfold bind.
  destruct (Hm w Hne) as (F1 & T1 & N1). destruct (m w) as [a w1].
  simpl in *.
  destruct (Hk a w1 N1) as (F2 & T2 & N2). repeat split; congruence.
Qed.

Lemma tame_onCurrent (f : Task -> M Task) :
  (forall t, calm (f t)) -> tame (onCurrent f).
Proof.
  intros Hf w Hne. unfold onCurrent.
  destruct (currentTask w) as [|t outer] eqn:E; [congruence|].
  destruct (Hf t w) as (F & C). destruct (f t w) as [t' w']. simpl in *.
  repeat split; [exact F|discriminate].
Qed.

Lemma tame_console_call (which : Entry) (message : option jsstring) :
  tame (console_call which message).
Proof.
  assert (H : forall h, tame (callHandler h message)).
  { intros [e| | |]; simpl.
    - apply calm_tame. intro w. split; reflexivity.
    - apply tame_onCurrent. intro. apply calm_ret.
    - apply tame_onCurrent. intro.
      apply calm_bind; [apply calm_ret|intro; apply calm_set_status].
    - apply tame_onCurrent. intro.
      apply calm_bind; [apply calm_ret|intro; apply calm_set_status]. }
  intros w Hne. unfold console_call, bind, gets. apply H, Hne.
Qed.

Section Tame.

Variable stripAnsi : jsstring -> jsstring.
Variable statusText : Status -> jsstring.
Variable cyan : jsstring -> jsstring.

Lemma calm_currentTask_run {A} (owner : Task) (task : M A) :
  tame task -> calm (currentTask_run owner task).
Proof.
  intros Ht w. unfold currentTask_run.
  destruct (Ht (with_currentTask (owner :: currentTask w) w))
    as (F & T & N); [discriminate|].
  destruct (task _) as [a w']. simpl in *.
  destruct (currentTask w') as [|owner' outer]; [congruence|].
  simpl in *. subst outer. split; [exact F|reflexivity].
Qed.

Lemma calm_performTask {T} (task : Operation T) (owner : Task) :
  tame task -> calm (performTask stripAnsi task owner).
Proof.
  intro Ht.
  assert (Hc : forall e o, calm (@performTask_catch stripAnsi T e o)).
  { intros e o. unfold performTask_catch.
    apply calm_bind; [apply calm_set_status|intro].
    apply calm_bind; [apply calm_addMessage|intro].
    apply calm_bind; [apply calm_requestRerender|intro; apply calm_ret]. }
  unfold performTask.
  apply calm_bind; [apply calm_currentTask_run, Ht|].
  intros [[|result|e] o]; [apply calm_ret| |apply Hc].
  destruct (Promise_all _) as [| |e]; [apply calm_ret| |apply Hc].
  apply calm_bind; [apply calm_set_status|intro].
  apply calm_bind; [apply calm_requestRerender|intro; apply calm_ret].
Qed.

Lemma calm_newTask {T} (description : jsstring) (task : Operation T) :
  tame task -> calm (newTask stripAnsi description task).
Proof.
  intro Ht. unfold newTask.
  apply calm_bind; [apply calm_performTask, Ht|].
  intros [p this]. apply calm_ret.
Qed.

Lemma tame_run {T} (description : jsstring) (inTask : Operation T) :
  tame inTask -> tame (run stripAnsi statusText cyan description inTask).
Proof.
  intros Ht w Hne.
  assert (Hsub : tame
            (pt <- newTask stripAnsi description inTask ;;
             let (completion, entry) := pt : Promise T * Task in
             onCurrent (fun current =>
               ret (with_subTasks (_subTasks current ++ [entry]) current)) ;;
             requestRerender ;;
             ret completion)).
  { apply tame_bind; [apply calm_tame, calm_newTask, Ht|].
    intros [completion entry].
    apply tame_bind; [apply tame_onCurrent; intro; apply calm_ret|intro].
    apply calm_tame.
    apply calm_bind; [apply calm_requestRerender|intro; apply calm_ret]. }
  match type of Hsub with tame ?m => set (sub := m) in * end.
  assert (E : run stripAnsi statusText cyan description inTask w = sub w).
  { unfold run. unfold bind at 1. unfold gets at 1.
    destruct (currentTask w) as [|t outer]; [congruence|reflexivity]. }
  rewrite E. apply Hsub, Hne.
Qed.

Lemma tame_setStatus (s : Status) : tame (setStatus s).
Proof. apply tame_onCurrent. intro. apply calm_set_status. Qed.

Lemma tame_setMessage (msg : jsstring) : tame (setMessage stripAnsi msg).
Proof. apply tame_onCurrent. intro. apply calm_addMessage. Qed.

Lemma tame_runOptional {T} (description : jsstring) (inTask : Operation T) :
  tame inTask ->
  tame (runOptional stripAnsi statusText cyan description inTask).
Proof.
  intro Ht. unfold runOptional. apply tame_run.
  apply tame_bind; [exact Ht|].
  intros [|v|e]; try (apply calm_tame, calm_ret).
  apply tame_bind; [apply tame_setMessage|intro].
  apply tame_bind; [apply tame_setStatus|intro].
  apply calm_tame, calm_ret.
Qed.

(** X14.  Inside a task, no entry point of the library changes what lies
    outside the task: [setStatus], [setMessage], a call of [console], and
    [run] and [runOptional] of operations of which this holds, one after
    the other in any number, leave [console], the number of painting
    sessions, the roots, the counter, the backend and the saved entry
    points of the runner as they are, and end inside the same task with
    the enclosing tasks untouched. *)
Theorem X14_entry_points_are_tame :
  forall (T U : Type) (s : Status) (msg : jsstring) (which : Entry)
         (message : option jsstring) (description : jsstring)
         (inTask : Operation T) (first : M U) (next : U -> M T) (v : T),
    tame (setStatus s)
    /\ tame (setMessage stripAnsi msg)
    /\ tame (console_call which message)
    /\ tame (ret (Fulfilled v) : Operation T)
    /\ tame (ret (Rejected msg) : Operation T)
    /\ (tame inTask ->
        tame (run stripAnsi statusText cyan description inTask)
        /\ tame (runOptional stripAnsi statusText cyan description inTask))
    /\ (tame first -> (forall u, tame (next u)) -> tame (bind first next)).
Proof.
  intros.
  split; [apply tame_setStatus|].
  split; [apply tame_setMessage|].
  split; [apply tame_console_call|].
  split; [apply calm_tame, calm_ret|].
  split; [apply calm_tame, calm_ret|].
  split.
  - intro Ht. split; [apply tame_run|apply tame_runOptional]; exact Ht.
  - apply tame_bind.
Qed.

End Tame.

(** ** [console] after the drain *)








Section Restored.

Variable stripAnsi : jsstring -> jsstring.
Variable statusText : Status -> jsstring.
Variable cyan : jsstring -> jsstring.




End Restored.


(** ** Redraw requests after the drain *)

Lemma kd_ret {A} (a : A) : keepsDeaf (ret a).
Proof. intros h w H. exact H. Qed.

Lemma kd_bind {A B} (m : M A) (k : A -> M B) :
  keepsDeaf m -> (forall a, keepsDeaf (k a)) -> keepsDeaf (bind m k).
Proof.
  intros Hm Hk h w H. unfold bind.
  pose proof (Hm h w H) as H1. destruct (m w) as [a w1].
  apply (Hk a h w1 H1).
Qed.

Lemma requestRerender_deaf (h : Immediate) (w : World) :
  deaf h w -> requestRerender w = (tt, w).
Proof.
  intros (this & Hr & Hh & _). apply (requestRerender_set w Hr Hh).
Qed.

Lemma kd_requestRerender : keepsDeaf requestRerender.
Proof. intros h w H. rewrite (requestRerender_deaf H). exact H. Qed.

Lemma kd_set_status (s : Status) (t : Task) : keepsDeaf (set_status s t).
Proof.
  unfold set_status. destruct (_ <? _); [|apply kd_ret].
  apply kd_bind; [apply kd_requestRerender|intro; apply kd_ret].
Qed.

Lemma kd_update (t : Task) : keepsDeaf (update t).
Proof.
  unfold update.
  repeat match goal with
         | |- context [if ?b then _ else _] => destruct b
         end; first [apply kd_set_status | apply kd_ret].
Qed.

Lemma kd_mapM {A B} (f : A -> M B) (l : list A) :
  (forall a, keepsDeaf (f a)) -> keepsDeaf (mapM f l).
Proof.
  intro Hf. induction l as [|a l IH]; simpl; [apply kd_ret|].
  apply kd_bind; [apply Hf|intro].
  apply kd_bind; [apply IH|intro; apply kd_ret].
Qed.

Lemma kd_forEachThrow {A} (f : A -> M Thrown) (l : list A) :
  (forall a, In a l -> keepsDeaf (f a)) -> keepsDeaf (forEachThrow f l).
Proof.
  induction l as [|a l IH]; intro Hf; simpl; [apply kd_ret|].
  apply kd_bind; [apply Hf; left; reflexivity|].
  intros [e|]; [apply kd_ret|].
  apply IH. intros b Hb. apply Hf. right. exact Hb.
Qed.

Lemma kd_onCurrent (f : Task -> M Task) :
  (forall t, keepsDeaf (f t)) -> keepsDeaf (onCurrent f).
Proof.
  intros Hf h w H. unfold onCurrent.
  destruct (currentTask w) as [|t outer]; [exact H|].
  pose proof (Hf t h w H) as H1. destruct (f t w) as [t' w'].
  exact H1.
Qed.

(** A method of the runner that returns [this] with [_rerender] as it
    was. *)
Lemma kd_onRunner (g : Runner -> Runner) :
  (forall r, _rerender (g r) = _rerender r) ->
  keepsDeaf (onRunner (fun this => ret (g this))).
Proof.
  intros Hg h w (this & Hr & Hh & Hq). unfold onRunner. rewrite Hr. simpl.
  exists (g this). rewrite Hg. repeat split; assumption.
Qed.

Lemma kd_console_call (which : Entry) (message : option jsstring) :
  keepsDeaf (console_call which message).
Proof.
  assert (H : forall hd, keepsDeaf (callHandler hd message)).
  { intros [e| | |]; simpl.
    - intros h w H. exact H.
    - apply kd_onCurrent. intro. apply kd_ret.
    - apply kd_onCurrent. intro.
      apply kd_bind; [apply kd_ret|intro; apply kd_set_status].
    - apply kd_onCurrent. intro.
      apply kd_bind; [apply kd_ret|intro; apply kd_set_status]. }
  intros h w Hd. unfold console_call, bind, gets. apply H, Hd.
Qed.

Section Deaf.

Variable stripAnsi : jsstring -> jsstring.
Variable statusText : Status -> jsstring.
Variable cyan : jsstring -> jsstring.

Lemma kd_printLogs (t : Task) : keepsDeaf (printLogs stripAnsi cyan t).
Proof.
  induction t as [d s l lg m n c IH] using Task_induction.
  rewrite printLogs_unfold.
  apply kd_bind.
  - unfold printOwnLogs.
    destruct (0 <? _); [|apply kd_ret].
    apply kd_bind; [intros h w H; exact H|intro avail].
    destruct (_ <? 0)%Z; [apply kd_ret|].
    apply kd_bind; [apply kd_console_call|intro].
    apply kd_bind; [apply kd_console_call|intro].
    apply kd_bind; [|intro; apply kd_ret].
    apply kd_mapM. intro. apply kd_console_call.
  - intros [e|]; [apply kd_ret|].
    apply kd_forEachThrow. exact IH.
Qed.

Lemma kd_updateRoots : keepsDeaf updateRoots.
Proof.
  unfold updateRoots.
  apply kd_bind; [intros h w H; exact H|intros [this|]]; [|apply kd_ret].
  apply kd_bind; [apply kd_mapM; intro; apply kd_update|intro roots].
  apply (kd_onRunner (with_roots roots)). reflexivity.
Qed.

Lemma kd__render : keepsDeaf (_render stripAnsi statusText).
Proof.
  unfold _render.
  apply kd_bind; [intros h w H; exact H|intro avail].
  intros h w (this & Hr & Hh & Hq). unfold onRunner. rewrite Hr. simpl.
  eexists. repeat split; assumption.
Qed.

(** X16.  When [allDone] runs while a redraw is scheduled, it cancels the
    redraw but keeps its handle in [_rerender].  From then on the runner is
    deaf to redraw requests: [requestRerender] changes nothing, so however
    many requests and turns of the loop follow, no frame is painted. *)
Theorem X16_drained_runner_is_deaf :
  forall (h : Immediate) (w : World),
    scheduled h w ->
    let w' := snd (allDone stripAnsi statusText cyan w) in
    deaf h w'
    /\ requestRerender w' = (tt, w')
    /\ (forall n,
          tick stripAnsi statusText (snd (requestRerenders n w')) = (tt, w')).
Proof.
  intros h w (this & Hr & Hh & Hq) w'.
  assert (Hd : deaf h w').
  { subst w'. unfold allDone. unfold bind at 1. unfold gets at 1.
    rewrite Hr, Hh.
    match goal with
    | |- deaf h (snd (bind (clearImmediate h) ?k w)) =>
        assert (K : keepsDeaf (k tt))
    end.
    { apply kd_bind; [apply kd_updateRoots|intro].
      apply kd_bind; [apply kd__render|intro].
      apply kd_bind.
      { apply (kd_onRunner
                 (fun this0 =>
                    with_backend
                      (mkLogUpdate (frames (_backend this0))
                                   (S (doneCalls (_backend this0)))) this0)).
        reflexivity. }
      intro. apply kd_bind.
      { intros h0 w0 (r0 & H1 & H2 & H3). eexists. repeat split; eassumption. }
      intro. apply kd_bind; [intros h0 w0 H0; exact H0|intro roots].
      apply kd_bind.
      { apply kd_forEachThrow. intros. apply kd_printLogs. }
      intros [e|]; [apply kd_ret|].
      apply kd_bind; [apply kd_console_call|intro; apply kd_ret]. }
    unfold bind at 1. unfold clearImmediate, modify. cbv beta iota.
    apply K. exists this. repeat split; [exact Hr|exact Hh|].
    simpl. rewrite Hq. simpl.
    destruct (Nat.eq_dec h h); [reflexivity|congruence]. }
  split; [exact Hd|].
  split; [apply (requestRerender_deaf Hd)|].
  intro n.
  assert (E : requestRerenders n w' = (tt, w')).
  { induction n as [|n IH]; [reflexivity|].
    simpl. unfold bind. rewrite (requestRerender_deaf Hd). exact IH. }
  rewrite E. simpl. apply tick_idle.
  destruct Hd as (r & _ & _ & Hq'). exact Hq'.
Qed.

End Deaf.

(** After one mutation of a new node in a process whose runner has just
    been made. *)
Lemma X16_drained_runner_is_deaf_witness :
  let w := snd (requestRerender (activeWorld None)) in
  scheduled 0 w
  /\ requestRerender
       (snd (allDone Ansi.strip Chalk.statusText Chalk.cyan w))
     = (tt, snd (allDone Ansi.strip Chalk.statusText Chalk.cyan w)).
Proof.
  intro w.
  assert (H : scheduled 0 w).
  { eexists. repeat split. }
  split; [exact H|].
  exact (proj1 (proj2 (X16_drained_runner_is_deaf
                         Ansi.strip Chalk.statusText Chalk.cyan H))).
Defined.

(** ** Optional tasks *)






Section OptionalTask.

Variable stripAnsi : jsstring -> jsstring.
Variable statusText : Status -> jsstring.
Variable cyan : jsstring -> jsstring.




(** *** Printing at top level *)








(** *** The drain at top level *)





Hypothesis stripAnsi_plain :
  forall s, Ansi.plain s = true -> stripAnsi s = s.


End OptionalTask.



(** ** Coalesced redraws over the life of the runner *)

Section Drained.

Variable stripAnsi : jsstring -> jsstring.
Variable statusText : Status -> jsstring.
Variable cyan : jsstring -> jsstring.



End Drained.


(** ** The variant of [unnamed/part_000] *)

Lemma requestRerender_again (w : World) :
  snd (requestRerender (snd (requestRerender w))) = snd (requestRerender w).
Proof.
  destruct w as [ct [[tr be ro [h|] cl ce cw ci]|] co lo cols out cre];
    reflexivity.
Qed.

Lemma updateInfo_task (i : Part000.PartialTaskInfo) (this : Task) (w : World) :
  fst (Part000.updateInfo i this w)
  = Part000.with_info
      (Part000.spread
         (Part000.info
            match Part000.has_status i with
            | Some s => Part000.setStatus s this
            | None => this
            end)
         (Part000.omitStatus i))
      match Part000.has_status i with
      | Some s => Part000.setStatus s this
      | None => this
      end.
Proof.
  unfold Part000.updateInfo, Part000.rerender, bind.
  destruct (requestRerender w) as [[] w']. reflexivity.
Qed.

Lemma updateInfo_world (i : Part000.PartialTaskInfo) (this : Task) (w : World) :
  snd (Part000.updateInfo i this w) = snd (requestRerender w).
Proof.
  unfold Part000.updateInfo, Part000.rerender, bind.
  destruct (requestRerender w) as [[] w']. reflexivity.
Qed.

Lemma last_cons {A} (a d : A) (l : list A) : last (a :: l) d = last l a.
Proof.
  revert a d. induction l as [|b l IH]; intros a d; [reflexivity|].
  change (last (a :: b :: l) d) with (last (b :: l) d).
  rewrite (IH b d), (IH b a). reflexivity.
Qed.

Lemma updateInfos_world (calls : list Part000.PartialTaskInfo) (this : Task)
  (w : World) :
  calls <> [] ->
  snd (Part000.updateInfos calls this w) = snd (requestRerender w).
Proof.
  revert this w. induction calls as [|i rest IH]; intros this w Hne;
    [congruence|].
  simpl. unfold bind.
  pose proof (updateInfo_world i this w) as E.
  destruct (Part000.updateInfo i this w) as [this1 w1]. simpl in E. subst w1.
  destruct rest as [|j rest']; [reflexivity|].
  rewrite IH by discriminate. apply requestRerender_again.
Qed.

(** X17.  [unnamed/part_000], a sequence of calls of [updateInfo] on a
    node: the status it ends with is one of the statuses it had or was
    given and none of them ranks higher; the message and the label are the
    last ones given, or the ones it had when none was given; the
    sub-tasks, the logs and the completion are untouched; and the process
    is left as one request for a redraw leaves it, whatever the calls
    hold, provided there is a call at all. *)
Theorem X17_updateInfo_last_write_wins :
  forall (calls : list Part000.PartialTaskInfo) (this : Task) (w : World),
    let final := fst (Part000.updateInfos calls this w) in
    In (Part000.status (Part000.info final))
       (Part000.status (Part000.info this)
          :: Part000.given Part000.has_status calls)
    /\ (forall s,
          In s (Part000.status (Part000.info this)
                  :: Part000.given Part000.has_status calls) ->
          statusStrength s
            <= statusStrength (Part000.status (Part000.info final)))
    /\ Part000.message (Part000.info final)
       = last (Part000.given Part000.has_message calls)
              (Part000.message (Part000.info this))
    /\ Part000.label (Part000.info final)
       = last (Part000.given Part000.has_label calls)
              (Part000.label (Part000.info this))
    /\ _subTasks final = _subTasks this
    /\ _logs final = _logs this
    /\ _completion final = _completion this
    /\ (calls <> [] ->
        snd (Part000.updateInfos calls this w) = snd (requestRerender w)).
Proof.
  intros calls this w final.
  assert (H : forall calls this w,
    let final := fst (Part000.updateInfos calls this w) in
    In (Part000.status (Part000.info final))
       (Part000.status (Part000.info this)
          :: Part000.given Part000.has_status calls)
    /\ (forall s,
          In s (Part000.status (Part000.info this)
                  :: Part000.given Part000.has_status calls) ->
          statusStrength s
            <= statusStrength (Part000.status (Part000.info final)))
    /\ Part000.message (Part000.info final)
       = last (Part000.given Part000.has_message calls)
              (Part000.message (Part000.info this))
    /\ Part000.label (Part000.info final)
       = last (Part000.given Part000.has_label calls)
              (Part000.label (Part000.info this))
    /\ _subTasks final = _subTasks this
    /\ _logs final = _logs this
    /\ _completion final = _completion this).
  { clear. induction calls as [|i rest IH]; intros this w final.
    - subst final. simpl. repeat split; auto.
      intros s [<-|[]]. apply Nat.le_refl.
    - subst final. simpl Part000.updateInfos. unfold bind.
      pose proof (updateInfo_task i this w) as E.
      destruct (Part000.updateInfo i this w) as [this1 w1]. simpl in E.
      specialize (IH this1 w1). cbv zeta in IH.
      destruct IH as (I1 & I2 & I3 & I4 & I5 & I6 & I7).
      set (fin := fst (Part000.updateInfos rest this1 w1)) in *.
      destruct this as [d s l lg m n c].
      destruct i as [il [ist|] im]; unfold Part000.given in *; simpl in *.
      + unfold Part000.setStatus in E. simpl in E.
        destruct (statusStrength s <? statusStrength ist) eqn:Es;
          [apply Nat.ltb_lt in Es|apply Nat.ltb_ge in Es];
          subst this1; simpl in *.
        * repeat split.
          -- right. exact I1.
          -- intros s0 [<-|[<-|Hs]].
             ++ specialize (I2 ist (or_introl eq_refl)). lia.
             ++ apply I2. left. reflexivity.
             ++ apply I2. right. exact Hs.
          -- rewrite I3. destruct im; simpl; [symmetry; exact (last_cons _ _ _)|reflexivity].
          -- rewrite I4. destruct il; simpl; [symmetry; exact (last_cons _ _ _)|reflexivity].
          -- exact I5.
          -- exact I6.
          -- exact I7.
        * repeat split.
          -- destruct I1 as [I1|I1]; [left; exact I1|right; right; exact I1].
          -- intros s0 [<-|[<-|Hs]].
             ++ apply I2. left. reflexivity.
             ++ specialize (I2 s (or_introl eq_refl)). lia.
             ++ apply I2. right. exact Hs.
          -- rewrite I3. destruct im; simpl; [symmetry; exact (last_cons _ _ _)|reflexivity].
          -- rewrite I4. destruct il; simpl; [symmetry; exact (last_cons _ _ _)|reflexivity].
          -- exact I5.
          -- exact I6.
          -- exact I7.
      + subst this1; simpl in *.
        repeat split.
        * exact I1.
        * exact I2.
        * rewrite I3. destruct im; simpl; [symmetry; exact (last_cons _ _ _)|reflexivity].
        * rewrite I4. destruct il; simpl; [symmetry; exact (last_cons _ _ _)|reflexivity].
        * exact I5.
        * exact I6.
        * exact I7. }
  destruct (H calls this w) as (H1 & H2 & H3 & H4 & H5 & H6 & H7).
  repeat split; try assumption.
  apply updateInfos_world.
Qed.

Lemma performTask_catch_task {T} (e : Error) (owner : Task) (w : World) :
  fst (@Part000.performTask_catch T e owner w)
  = (Rejected e,
     fst (Part000.updateInfo
            (Part000.mkPartial None (Some Fail) (Some e)) owner w)).
Proof.
  unfold Part000.performTask_catch, bind.
  destruct (Part000.updateInfo _ owner w) as [owner1 w1].
  unfold Part000.rerender. destruct (requestRerender w1) as [[] w2].
  reflexivity.
Qed.

(** X18.  [unnamed/part_000]: for every info given to the constructor of
    [TaskState] and every operation that fulfils, has not settled, or
    rejects with an [Error] object (a value whose [message] is a string),
    the promise of the node and the status of the node agree when the
    constructor returns.  A node whose promise is fulfilled has the status
    [done], [warn] or [skip], never [fail]; a node whose promise is
    rejected with an [Error] object has the status [fail] or [skip] and
    its message is the message of the error. *)
Theorem X18_promise_agrees_with_status :
  forall (T : Type) (task : Operation T) (i : Part000.PartialTaskInfo)
         (w : World),
    let p := fst (fst (Part000.newTaskState task i w)) in
    let this := snd (fst (Part000.newTaskState task i w)) in
    _completion this = settled p
    /\ match p with
       | Fulfilled _ =>
           In (Part000.status (Part000.info this)) [Done; Warn; Skip]
       | Rejected e =>
           In (Part000.status (Part000.info this)) [Fail; Skip]
           /\ Part000.message (Part000.info this) = e
       | Unsettled => True
       end.
Proof.
  intros T task i w.
  unfold Part000.newTaskState, bind.
  destruct (Part000.performTask task (Part000.initialState i) w)
    as [[p this] w'] eqn:E.
  cbn [fst snd]. split; [reflexivity|].
  assert (E' : fst (Part000.performTask task (Part000.initialState i) w)
               = (p, this)) by (rewrite E; reflexivity).
  clear E. unfold Part000.performTask, bind in E'.
  destruct (currentTask_run (Part000.initialState i) task w)
    as [[r owner] w1].
  assert (C : forall e,
    fst (@Part000.performTask_catch T e owner w1) = (p, this) ->
    match p with
    | Fulfilled _ =>
        In (Part000.status (Part000.info (with_completion (settled p) this)))
           [Done; Warn; Skip]
    | Rejected e0 =>
        In (Part000.status (Part000.info (with_completion (settled p) this)))
           [Fail; Skip]
        /\ Part000.message (Part000.info (with_completion (settled p) this))
           = e0
    | Unsettled => True
    end).
  { intros e H. rewrite performTask_catch_task, updateInfo_task in H.
    injection H as <- <-. destruct owner as [d s l lg m n c].
    destruct s; simpl; auto. }
  destruct r as [|v|e].
  - injection E' as <- <-. exact I.
  - destruct (Promise_all (map wait (_subTasks owner))) as [|[]|e].
    + injection E' as <- <-. exact I.
    + destruct (Status_eqb (Part000.status (Part000.info owner)) Fail) eqn:S.
      * apply (C _ E').
      * pose proof (updateInfo_task (Part000.justStatus Done) owner w1) as U.
        destruct (Part000.updateInfo (Part000.justStatus Done) owner w1)
          as [owner1 w2].
        unfold Part000.rerender in E'.
        destruct (requestRerender w2) as [[] w3].
        simpl in E', U. injection E' as <- <-. subst owner1.
        destruct owner as [d s l lg m n c]. simpl in S.
        destruct s; simpl; auto; discriminate S.
    + apply (C _ E').
  - apply (C _ E').
Qed.

Section LoggedError.

Variable stripAnsi : jsstring -> jsstring.

(** X19.  An operation that calls [console.error] while the runner has
    the console, and then fulfils with [v].  In [src/index.ts] the promise
    of its node is fulfilled with [v] although the node has the status
    [fail].  In [unnamed/part_000] the promise is rejected, with the
    message the node was constructed with as the message of the error
    (the empty string when none was given), unless the node was
    constructed with the status [skip].  Both nodes hold the logged
    line. *)
Theorem X19_logged_error_rejects :
  forall (T : Type) (v : T) (said : option jsstring)
         (description : jsstring) (i : Part000.PartialTaskInfo) (w : World),
    console_error (console w) = errorHandler ->
    Part000.has_status i <> Some Skip ->
    let old := newTask stripAnsi description
                 (console_call Error_ said ;; ret (Fulfilled v)) w in
    let new := Part000.newTaskState
                 (Part000.console_call Error_ said ;; ret (Fulfilled v)) i w in
    (fst (fst old) = Fulfilled v
     /\ _status (snd (fst old)) = Fail
     /\ _logs (snd (fst old)) = [formatted said])
    /\ (fst (fst new)
          = Rejected (Part000.message (Part000.info (Part000.initialState i)))
        /\ Part000.status (Part000.info (snd (fst new))) = Fail
        /\ Part000.message (Part000.info (snd (fst new)))
           = Part000.message (Part000.info (Part000.initialState i))
        /\ _logs (snd (fst new)) = [formatted said]).
Proof.
  intros T v said description i w He Hs old new. subst old new.
  destruct w as [ct [[tr be ro [h|] cl ce cw ci]|] [col cow coe coi] lo cols out cre];
    simpl in He; subst coe;
    destruct i as [il [[| | | |]|] im]; simpl in Hs; try congruence;
    (split; repeat split).
Qed.

End LoggedError.

(** Inside the first task of a new runner, without info. *)
Lemma X19_logged_error_rejects_witness :
  console_error (console (activeWorld None)) = errorHandler
  /\ fst (fst (Part000.newTaskState
                 (Part000.console_call Error_ (Some (lit "oops")) ;;
                  ret (Fulfilled 1))
                 (Part000.mkPartial None None None) (activeWorld None)))
     = Rejected [].
Proof.
  split; [reflexivity|].
  exact (proj1 (proj2 (@X19_logged_error_rejects
                         Ansi.strip nat 1 (Some (lit "oops")) (lit "build")
                         (Part000.mkPartial None None None)
                         (activeWorld None) eq_refl
                         ltac:(discriminate)))).
Defined.

Lemma requestRerender_currentTask (w : World) :
  currentTask (snd (requestRerender w)) = currentTask w.
Proof. apply calm_requestRerender. Qed.

Section TryRun.

Variable stripAnsi : jsstring -> jsstring.
Variable statusText : Status -> jsstring.
Variable cyan : jsstring -> jsstring.

(** X20.  [unnamed/part_000], [tryRun] called inside a task, with an
    operation that rejects with the message [e] and whose own sub-tasks
    have all fulfilled: the promise returned is fulfilled with
    [undefined]; the node is appended to the children of the calling task
    with the status [skip], whatever status the operation had left, and
    with [e] as its message; its label, sub-tasks and logs are those the
    operation left. *)
Theorem X20_tryRun_skips :
  forall (T : Type) (inTask : Operation T) (i : option Part000.PartialTaskInfo)
         (w w1 : World) (e : Error) (owner parent : Task)
         (outer : list Task),
    currentTask w <> [] ->
    inTask (with_currentTask
              (Part000.initialState (Part000.orEmpty i) :: currentTask w) w)
      = (Rejected e, w1) ->
    currentTask w1 = owner :: parent :: outer ->
    Promise_all (map wait (_subTasks owner)) = Fulfilled tt ->
    let res := Part000.tryRun stripAnsi statusText cyan inTask i w in
    fst res = Fulfilled None
    /\ exists node,
        currentTask (snd res)
          = with_subTasks (_subTasks parent ++ [node]) parent :: outer
        /\ Part000.info node
           = Part000.mkTaskInfo (Part000.label (Part000.info owner)) Skip e
        /\ _subTasks node = _subTasks owner
        /\ _logs node = _logs owner
        /\ _completion node = Fulfilled tt
        /\ wait node = Fulfilled tt.
Proof.
  intros T inTask i w w1 e owner parent outer Hne Hin Hst Hall res.
  subst res.
  destruct (Part000.tryRun stripAnsi statusText cyan inTask i w)
    as [pr wf] eqn:Eres.
  cbn [fst snd]. revert Eres. unfold Part000.tryRun, Part000.run.
  unfold bind at 1. unfold gets at 1.
  destruct (currentTask w) as [|p0 o0] eqn:Ect; [congruence|].
  cbn [hd_error].
  unfold bind at 1. unfold Part000.newTaskState. unfold bind at 1.
  unfold Part000.performTask. unfold bind at 1.
  unfold currentTask_run. unfold bind at 1.
  rewrite Ect, Hin.
  unfold bind at 1. unfold Part000.update, onCurrent. rewrite Hst.
  unfold Part000.updateInfo at 1. unfold bind at 1.
  unfold Part000.rerender at 1.
  pose proof (requestRerender_currentTask w1) as C1.
  destruct (requestRerender w1) as [[] w2]. cbn [snd] in C1.
  unfold ret at 1. unfold ret at 1.
  cbn [currentTask with_currentTask].
  set (owner1 := Part000.with_info _ _).
  assert (S1 : Part000.info owner1
               = Part000.mkTaskInfo (Part000.label (Part000.info owner)) Skip e).
  { subst owner1. destruct owner as [d s l lg m n c].
    destruct s; reflexivity. }
  assert (K1 : _subTasks owner1 = _subTasks owner
               /\ _logs owner1 = _logs owner).
  { subst owner1. destruct owner as [d s l lg m n c].
    destruct s; split; reflexivity. }
  destruct K1 as (K1 & K2).
  rewrite K1, Hall.
  replace (Status_eqb (Part000.status (Part000.info owner1)) Fail)
    with false by (rewrite S1; reflexivity).
  unfold bind at 1. unfold Part000.updateInfo at 1. unfold bind at 1.
  unfold Part000.rerender.
  set (w2' := with_currentTask (parent :: outer) _).
  assert (C2 : currentTask w2' = parent :: outer) by reflexivity.
  clearbody w2'.
  pose proof (requestRerender_currentTask w2') as C3.
  destruct (requestRerender w2') as [[] w3]. cbn [snd] in C3.
  unfold ret at 1. unfold bind at 1.
  pose proof (requestRerender_currentTask w3) as C4.
  destruct (requestRerender w3) as [[] w4]. cbn [snd] in C4.
  unfold ret at 1. unfold ret at 1.
  unfold bind at 1. unfold onCurrent.
  rewrite C4, C3, C2. unfold ret at 1.
  unfold bind at 1.
  set (w5 := with_currentTask _ w4).
  pose proof (requestRerender_currentTask w5) as C5.
  destruct (requestRerender w5) as [[] w6]. cbn [snd] in C5.
  unfold ret. intro Eres. injection Eres as <- <-.
  split; [reflexivity|].
  eexists. split; [rewrite C5; reflexivity|].
  set (owner2 := Part000.with_info _ _).
  assert (S2 : Part000.info owner2 = Part000.info owner1
               /\ _subTasks owner2 = _subTasks owner1
               /\ _logs owner2 = _logs owner1).
  { subst owner2. rewrite S1.
    destruct owner1 as [d s l lg m n c]. simpl in S1.
    injection S1 as -> -> ->. repeat split. }
  destruct S2 as (S2 & S3 & S4).
  repeat split.
  - change (Part000.info owner2 = Part000.mkTaskInfo
              (Part000.label (Part000.info owner)) Skip e).
    rewrite S2. exact S1.
  - change (_subTasks owner2 = _subTasks owner). congruence.
  - change (_logs owner2 = _logs owner). congruence.
  - change (match Fulfilled tt with
            | Fulfilled _ => Promise_all (map wait (_subTasks owner2))
            | Rejected e0 => Rejected e0
            | Unsettled => Unsettled
            end = Fulfilled tt).
    cbv iota. rewrite S3, K1. exact Hall.
Qed.

End TryRun.

(** An operation that rejects at once, inside the task [build]. *)
Lemma X20_tryRun_skips_witness :
  let w := with_currentTask [freshTask (lit "build")] (activeWorld None) in
  currentTask w <> []
  /\ fst (Part000.tryRun Ansi.strip Chalk.statusText Chalk.cyan (T := unit)
                          (ret (Rejected (lit "boom"))) None w)
     = Fulfilled None.
Proof.
  intro w. split; [discriminate|].
  exact (proj1 (@X20_tryRun_skips
                  Ansi.strip Chalk.statusText Chalk.cyan unit
                  (ret (Rejected (lit "boom"))) None w
                  (with_currentTask
                     (Part000.initialState (Part000.orEmpty None)
                        :: currentTask w) w)
                  (lit "boom")
                  (Part000.initialState (Part000.orEmpty None))
                  (freshTask (lit "build")) []
                  ltac:(discriminate) eq_refl eq_refl eq_refl)).
Defined.
